(** * SoundForge: the genome-to-melody codec and the generation loop

    A shallow embedding of [SoundForge.py].  Python integers are [Z], lists
    are [list], floats are the binary64 values of [PrimFloat], exceptions are
    an explicit error type.  The pyo scale object and the operators imported
    from [Backbone] are parameters of the sections that use them.

    A genome is a list of integers, which the program fills with the bits 0
    and 1.  The decoder reads a note window through its exact value,
    [int_from_bits]; the program computes this value in floats, which
    [int_from_bits_binary64] follows, and the two agree on every window of a
    genome of bits: the properties of the decoder are properties of the
    program on genomes of bits.  Memory is not bounded: a list too long for
    the machine is not an error here. *)

From Stdlib Require Import String Floats QArith ZArith List Lia Bool.
From Stdlib Require Import Permutation Sorted.
Import ListNotations.
Open Scope Z_scope.

(** ** Exceptions and fallible computations *)

Inductive exn : Type :=
| ZeroDivisionError
| OverflowError
| IndexError
| ValueError.

Inductive result (A : Type) : Type :=
| OK (a : A)
| Error (e : exn).
Arguments OK {A} a.
Arguments Error {A} e.

Definition bind {A B : Type} (m : result A) (k : A -> result B) : result B :=
  match m with
  | OK a => k a
  | Error e => Error e
  end.

Notation "x <- m ;; k" := (bind m (fun x => k))
  (at level 61, m at next level, right associativity).

(** A [for] loop that threads a state and stops at the first exception. *)
Fixpoint for_each {S A : Type} (body : S -> A -> result S) (l : list A) (s : S)
  : result S :=
  match l with
  | [] => OK s
  | x :: rest => s' <- body s x ;; for_each body rest s'
  end.

(** A list comprehension whose element expression may raise. *)
Fixpoint comprehension {A B : Type} (f : A -> result B) (l : list A)
  : result (list B) :=
  match l with
  | [] => OK []
  | x :: rest => y <- f x ;; ys <- comprehension f rest ;; OK (y :: ys)
  end.

(** ** Python built-ins used by the source *)

(** [range(n)]: empty when [n <= 0]. *)
Definition range (n : Z) : list Z := map Z.of_nat (seq 0 (Z.to_nat n)).

(** [enumerate(l)] *)
Fixpoint enumerate_from {A : Type} (start : Z) (l : list A) : list (Z * A) :=
  match l with
  | [] => []
  | x :: rest => (start, x) :: enumerate_from (start + 1) rest
  end.

Definition enumerate {A : Type} (l : list A) : list (Z * A) :=
  enumerate_from 0 l.

(** [sum(l)] on integers: left to right from 0. *)
Definition sum (l : list Z) : Z := fold_left Z.add l 0.

(** [l[a:b]] for [0 <= a <= b]; the slice is cut at the end of [l]. *)
Definition slice {A : Type} (l : list A) (a b : Z) : list A :=
  firstn (Z.to_nat (b - a)) (skipn (Z.to_nat a) l).

(** [l[i]] for [0 <= i]. *)
Definition index {A : Type} (l : list A) (i : nat) : result A :=
  match nth_error l i with
  | Some x => OK x
  | None => Error IndexError
  end.

(** ** Constants *)

Definition Genome : Type := list Z.

Definition BITS_PER_NOTE : Z := 4.

Definition KEYS : list string :=
  ["C"; "C#"; "Db"; "D"; "D#"; "Eb"; "E"; "F"; "F#"; "Gb"; "G"; "G#"; "Ab";
   "A"; "A#"; "Bb"; "B"]%string.

Definition SCALES : list string :=
  ["major"; "minorM"; "dorian"; "lydian"; "majorBlues"; "minorBlues"]%string.

(** ** int_from_bits

    The value of line 36 in exact integer arithmetic.  The program computes
    it in floats, since [pow] is [math.pow] there: [int_from_bits_binary64]
    below follows it step by step, and the two agree on every sequence of
    at most 53 bits, so on every note window of a genome of bits
    ([int_from_bits_binary64_exact]).  The decoder is stated with the exact
    value. *)

Definition int_from_bits (bits : list Z) : Z :=
  sum (map (fun '(index, bit) => bit * 2 ^ index) (enumerate bits)).

(** [sigma n term] is the sum of [term i] over [i < n]. *)
Fixpoint sigma (n : nat) (term : nat -> Z) : Z :=
  match n with
  | O => 0
  | S n' => sigma n' term + term n'
  end.

(** The sum of [bit_i * 2^i] over the positions [i] of the sequence, as the
    specification writes it. *)
Definition weighted_sum (bits : list Z) : Z :=
  sigma (length bits) (fun i => nth i bits 0 * 2 ^ Z.of_nat i).

(** The [k]-bit binary expansion of [n], least-significant bit first, as the
    specification words it. *)
Fixpoint binary_expansion (k : nat) (n : Z) : list Z :=
  match k with
  | O => []
  | S k' => n mod 2 :: binary_expansion k' (n / 2)
  end.

(** ** Beat arithmetic

    Durations are Python floats.  The decoder only adds them and computes
    [4 / float(num_notes)], so it is written once over an interface with
    these operations; [float_beats] is the binary64 arithmetic the program
    runs with, [exact_beats] reads the same operations over the rationals. *)

Class BeatArith (B : Type) : Type := {
  beat_zero : B;                          (* [0.0] *)
  beat_add : B -> B -> B;                 (* [x + y] *)
  convertible : Z -> Prop;                (* [float(n)] does not overflow *)
  true_div_4 : Z -> result B              (* [4 / float(n)] *)
}.

(** What the decoder relies on: the note length exists for every nonzero
    count that converts to a float, and computing it raises nothing but
    [ZeroDivisionError] and [OverflowError]. *)
Class BeatArithLaws (B : Type) `{BeatArith B} : Prop := {
  true_div_4_returns :
    forall n, n <> 0 -> convertible n -> exists q, true_div_4 n = OK q;
  true_div_4_raises :
    forall n e, true_div_4 n = Error e ->
                e = ZeroDivisionError \/ e = OverflowError
}.

(** [float(n)] rounds to the nearest binary64 value, ties to even, and
    raises [OverflowError] when that value would be infinite: from
    [2^1024 - 2^970] on. *)
Definition FLOAT_INT_LIMIT : Z := 2 ^ 1024 - 2 ^ 970.

Definition float_of_int (n : Z) : result float :=
  if FLOAT_INT_LIMIT <=? Z.abs n then Error OverflowError
  else OK (SF2Prim (binary_normalize prec emax n 0 false)).

(** [4 / float(n)]: float division raises on a zero divisor, and [float(n)]
    is [0.0] exactly when [n] is [0]. *)
Definition float_true_div_4 (n : Z) : result float :=
  x <- float_of_int n ;;
  if n =? 0 then Error ZeroDivisionError else OK (4 / x)%float.

#[export] Instance float_beats : BeatArith float := {|
  beat_zero := 0%float;
  beat_add := PrimFloat.add;
  convertible := fun n => Z.abs n < FLOAT_INT_LIMIT;
  true_div_4 := float_true_div_4
|}.

Definition exact_true_div_4 (n : Z) : result Q :=
  if n =? 0 then Error ZeroDivisionError else OK (4 / inject_Z n)%Q.

#[export] Instance exact_beats : BeatArith Q := {|
  beat_zero := 0%Q;
  beat_add := Qplus;
  convertible := fun _ => True;
  true_div_4 := exact_true_div_4
|}.

(** The durations of a list added up, left to right from zero. *)
Definition beat_sum {B : Type} `{BeatArith B} (l : list B) : B :=
  fold_left beat_add l beat_zero.

(** [note_length] accumulated into one entry by [k] ties: the duration of
    an entry that stands for [k + 1] windows. *)
Fixpoint tied {B : Type} `{BeatArith B} (note_length : B) (k : nat) : B :=
  match k with
  | O => note_length
  | S k' => beat_add (tied note_length k') note_length
  end.

(** ** genome_to_melody *)

(** The [melody] dictionary: keys ["notes"], ["velocity"] and ["beat"].
    ["notes"] holds integers during the loop and one list of pitches per
    step in the returned value. *)
Record Melody (N B : Type) : Type := mkMelody {
  notes : list N;
  velocity : list Z;
  beat : list B
}.
Arguments mkMelody {N B} _ _ _.
Arguments notes {N B} _.
Arguments velocity {N B} _.
Arguments beat {N B} _.

(** [l[-1] += x] *)
Fixpoint add_to_last {B : Type} (add : B -> B -> B) (l : list B) (x : B)
  : result (list B) :=
  match l with
  | [] => Error IndexError
  | b :: rest =>
      match rest with
      | [] => OK [add b x]
      | _ :: _ => rest' <- add_to_last add rest x ;; OK (b :: rest')
      end
  end.

(** One [addNote] call on the MIDI file. *)
Record MidiNote (Pitch B : Type) : Type := mkNote {
  track : Z;
  channel : Z;
  pitch : Pitch;
  time : B;
  duration : B;
  volume : Z
}.
Arguments mkNote {Pitch B} _ _ _ _ _ _.

Section Codec.
Context {Pitch B : Type} `{BeatArith B}.

(** pyo's [EventScale(root=key, scale=scale, first=root)], read as the
    sequence of its pitches. *)
Variable EventScale : string -> string -> Z -> list Pitch.

(** The integer a note window stands for: lines 56 to 59. *)
Definition decoded_value (pauses : bool) (note : list Z) : Z :=
  let integer := int_from_bits note in
  if negb pauses then integer mod 2 ^ (BITS_PER_NOTE - 1) else integer.

(** The body of the loop over [notes]: lines 56 to 71. *)
Definition decode_note (pauses : bool) (note_length : B)
  (melody : Melody Z B) (note : list Z) : result (Melody Z B) :=
  let integer := decoded_value pauses note in
  if integer >=? 2 ^ (BITS_PER_NOTE - 1) then
    OK (mkMelody (notes melody ++ [0])
                 (velocity melody ++ [0])
                 (beat melody ++ [note_length]))
  else if (Z.of_nat (length (notes melody)) >? 0)
          && (last (notes melody) 0 =? integer) then
    beat' <- add_to_last beat_add (beat melody) note_length ;;
    OK (mkMelody (notes melody) (velocity melody) beat')
  else
    OK (mkMelody (notes melody ++ [integer])
                 (velocity melody ++ [127])
                 (beat melody ++ [note_length])).

(** The note windows of line 42. *)
Definition note_windows (genome : Genome) (num_bars num_notes : Z)
  : list (list Z) :=
  map (fun i => slice genome (i * BITS_PER_NOTE)
                             (i * BITS_PER_NOTE + BITS_PER_NOTE))
      (range (num_bars * num_notes)).

(** The melody dictionary when the loop of lines 55 to 71 ends: stored
    pitch indices, velocities and durations. *)
Definition decode_notes (genome : Genome) (num_bars num_notes : Z)
  (pauses : bool) (note_length : B) : result (Melody Z B) :=
  for_each (decode_note pauses note_length)
           (note_windows genome num_bars num_notes)
           (mkMelody [] [] []).

(** [scl[i % len(scl)]] *)
Definition scale_at (scl : list Pitch) (i : Z) : result Pitch :=
  if Z.of_nat (length scl) =? 0 then Error ZeroDivisionError
  else index scl (Z.to_nat (i mod Z.of_nat (length scl))).

(** The pitch layers of lines 73 to 75. *)
Definition pitch_layers (scl : list Pitch) (stored : list Z) (num_steps : Z)
  : result (list (list Pitch)) :=
  comprehension
    (fun step => comprehension (fun note => scale_at scl (note + step * 2))
                               stored)
    (range num_steps).

(** Lines 40 to 78.  The windows of line 42 are built inside
    [decode_notes]: slicing raises nothing, so it does not show that the
    program builds them before the note length of line 44. *)
Definition genome_to_melody (genome : Genome)
  (num_bars num_notes num_steps : Z) (pauses : bool)
  (key scale : string) (root : Z) : result (Melody (list Pitch) B) :=
  note_length <- true_div_4 num_notes ;;
  let scl := EventScale key scale root in
  melody <- decode_notes genome num_bars num_notes pauses note_length ;;
  steps <- pitch_layers scl (notes melody) num_steps ;;
  OK (mkMelody steps (velocity melody) (beat melody)).

(** *** save_genome_to_midi

    The function is modelled up to line 159: a value [OK written] is the
    sequence of [addNote] calls that lines 154 to 159 make, in order, and it
    says nothing on lines 161 to 163, which create the directory and write
    the file and raise whenever the file system refuses, as it does for a
    filename with no directory part.  The track name is left out. *)

(** [mf.addTempo(track, time, bpm)] of line 152: midiutil divides 60000000
    by the tempo to store it, which raises for a tempo of 0. *)
Definition addTempo (bpm : Z) : result unit :=
  if bpm =? 0 then Error ZeroDivisionError else OK tt.

(** The inner loop of lines 156 and 157. *)
Definition add_notes (melody : Melody (list Pitch) B) (i : nat) (time : B)
  (vel : Z) : result (list (MidiNote Pitch B)) :=
  comprehension
    (fun step => pitch <- index step i ;;
                 duration <- index (beat melody) i ;;
                 OK (mkNote 0 0 pitch time duration vel))
    (notes melody).

(** The loop of lines 154 to 159 from position [i] on. *)
Fixpoint write_notes (melody : Melody (list Pitch) B) (i : nat)
  (velocities : list Z) (time : B) : result (list (MidiNote Pitch B)) :=
  match velocities with
  | [] => OK []
  | vel :: rest =>
      added <- (if vel >? 0 then add_notes melody i time vel else OK []) ;;
      duration <- index (beat melody) i ;;
      later <- write_notes melody (S i) rest (beat_add time duration) ;;
      OK (added ++ later)
  end.

Definition save_genome_to_midi (filename : string) (genome : Genome)
  (num_bars num_notes num_steps : Z) (pauses : bool)
  (key scale : string) (root bpm : Z) : result (list (MidiNote Pitch B)) :=
  melody <- genome_to_melody genome num_bars num_notes num_steps pauses
                             key scale root ;;
  first <- index (notes melody) 0 ;;
  if negb (length first =? length (beat melody))%nat
     || negb (length first =? length (velocity melody))%nat
  then Error ValueError
  else
    _ <- addTempo bpm ;;
    write_notes melody 0 (velocity melody) beat_zero.

End Codec.

(** What holds of the melody dictionary after [n] windows. *)
Record decoded_state {B : Type} `{BeatArith B} (pauses : bool)
  (note_length : B) (n : nat)
  (melody : Melody Z B) : Prop := {
  ds_velocity : length (velocity melody) = length (notes melody);
  ds_beat : length (beat melody) = length (notes melody);
  ds_sounding : pauses = false -> Forall (eq 127) (velocity melody);
  ds_ties : exists ks, beat melody = map (tied note_length) ks
                       /\ list_sum (map S ks) = n
}.

(** ** The generation loop of [main] *)

(** [sorted(l, key=key, reverse=True)]: descending, and stable. *)
Fixpoint insert_desc {A : Type} (key : A -> Z) (x : A) (l : list A) : list A :=
  match l with
  | [] => [x]
  | y :: rest => if key y >? key x then y :: insert_desc key x rest
                 else x :: y :: rest
  end.

Definition sorted_desc {A : Type} (key : A -> Z) (l : list A) : list A :=
  fold_right (insert_desc key) [] l.

(** [a == b] on genomes. *)
Fixpoint genome_eqb (a b : Genome) : bool :=
  match a, b with
  | [], [] => true
  | x :: a', y :: b' => (x =? y) && genome_eqb a' b'
  | _, _ => false
  end.

(** The closure [fitness_lookup] of lines 230 to 234. *)
Fixpoint fitness_lookup (population_fitness : list (Genome * Z))
  (genome : Genome) : Z :=
  match population_fitness with
  | [] => 0
  | e :: rest => if genome_eqb (fst e) genome then snd e
                 else fitness_lookup rest genome
  end.

Section Generation.
(** The state of Python's [random] module. *)
Variable RNG : Type.

(** A computation that draws random numbers and may raise. *)
Definition Rand (A : Type) : Type := RNG -> result (A * RNG).

Definition rand_ret {A : Type} (a : A) : Rand A := fun rng => OK (a, rng).

Definition rand_bind {A C : Type} (m : Rand A) (k : A -> Rand C) : Rand C :=
  fun rng => match m rng with
             | OK (a, rng') => k a rng'
             | Error e => Error e
             end.

Fixpoint rand_for_each {S A : Type} (body : S -> A -> Rand S) (l : list A)
  (s : S) : Rand S :=
  match l with
  | [] => rand_ret s
  | x :: rest => rand_bind (body s x) (rand_for_each body rest)
  end.

(** The operators imported from [Backbone]. *)
Variable selection_pair :
  list Genome -> (Genome -> Z) -> Rand (Genome * Genome).
Variable single_point_crossover : Genome -> Genome -> Rand (Genome * Genome).
Variable mutation : Genome -> Z -> float -> Rand Genome.

(** The body of the loop of lines 228 to 242. *)
Definition breed (population : list Genome)
  (population_fitness : list (Genome * Z)) (num_mutations : Z)
  (mutation_probability : float) (next_generation : list Genome) (j : Z)
  : Rand (list Genome) :=
  rand_bind (selection_pair population (fitness_lookup population_fitness))
    (fun parents =>
  rand_bind (single_point_crossover (fst parents) (snd parents))
    (fun offspring =>
  rand_bind (mutation (fst offspring) num_mutations mutation_probability)
    (fun offspring_a =>
  rand_bind (mutation (snd offspring) num_mutations mutation_probability)
    (fun offspring_b =>
  rand_ret (next_generation ++ [offspring_a; offspring_b]))))).

(** Lines 220 to 242 of [main]: from the rated population to the sorted
    population and the next generation.  [int(len(population) / 2)]
    truncates a float quotient, which is exact for every list length a
    run can hold. *)
Definition next_generation (population_fitness : list (Genome * Z))
  (num_mutations : Z) (mutation_probability : float)
  : Rand (list Genome * list Genome) :=
  let sorted_population_fitness := sorted_desc snd population_fitness in
  let population := map fst sorted_population_fitness in
  let survivors := firstn 2 population in
  rand_bind
    (rand_for_each
       (breed population population_fitness num_mutations
              mutation_probability)
       (range (Z.quot (Z.of_nat (length population)) 2 - 1))
       survivors)
    (fun next => rand_ret (population, next)).

End Generation.

(** ** Sample collaborators, to run the program on examples *)

(** A two-octave major scale on C from octave [first], standing in for the
    pyo scale object. *)
Definition sample_scale (key scale : string) (first : Z) : list Z :=
  map (fun degree => 12 * first + degree)
      [0; 2; 4; 5; 7; 9; 11; 12; 14; 16; 17; 19; 21; 23; 24].

(** Deterministic operators: the first two genomes are the parents, the cut
    point is 1, no bit is flipped. *)
Definition sample_selection_pair (population : list Genome)
  (lookup : Genome -> Z) : Rand unit (Genome * Genome) :=
  fun rng => match population with
             | [] => Error IndexError
             | [a] => OK ((a, a), rng)
             | a :: b :: _ => OK ((a, b), rng)
             end.

Definition sample_single_point_crossover (a b : Genome)
  : Rand unit (Genome * Genome) :=
  fun rng => if negb (length a =? length b)%nat then Error ValueError
             else OK ((firstn 1 a ++ skipn 1 b, firstn 1 b ++ skipn 1 a), rng).

Definition sample_mutation (genome : Genome) (num : Z) (probability : float)
  : Rand unit Genome :=
  fun rng => OK (genome, rng).

(** ** genome_to_events *)

(** pyo's [EventSeq(values, occurrences=n)]. *)
Record EventSeq (A : Type) : Type := mkEventSeq {
  values : list A;
  occurrences : Z
}.
Arguments mkEventSeq {A} _ _.
Arguments values {A} _.
Arguments occurrences {A} _.

(** The arguments of one pyo [Events(...)] object. *)
Module Events.
Record t (Pitch B : Type) : Type := mk {
  midinote : EventSeq Pitch;
  midivel : EventSeq Z;
  beat : EventSeq B;
  attack : float;
  decay : float;
  sustain : float;
  release : float;
  bpm : Z
}.
Arguments mk {Pitch B} _ _ _ _ _ _ _ _.
Arguments midinote {Pitch B} _.
Arguments midivel {Pitch B} _.
Arguments beat {Pitch B} _.
Arguments attack {Pitch B} _.
Arguments decay {Pitch B} _.
Arguments sustain {Pitch B} _.
Arguments release {Pitch B} _.
Arguments bpm {Pitch B} _.
End Events.

Section Playback.
Context {Pitch B : Type} `{BeatArith B}.
Variable EventScale : string -> string -> Z -> list Pitch.

(** The float literals are 0.001, 0.05, 0.5 and 0.005. *)
Definition genome_to_events (genome : Genome)
  (num_bars num_notes num_steps : Z) (pauses : bool) (key scale : string)
  (root bpm : Z) : result (list (Events.t Pitch B)) :=
  melody <- genome_to_melody EventScale genome num_bars num_notes num_steps
                             pauses key scale root ;;
  OK (map (fun step =>
             Events.mk (mkEventSeq step 1)
                       (mkEventSeq (velocity melody) 1)
                       (mkEventSeq (beat melody) 1)
                       0x1.0624dd2f1a9fcp-10%float
                       0x1.999999999999ap-5%float
                       0x1p-1%float
                       0x1.47ae147ae147bp-8%float
                       bpm)
          (notes melody)).

(** Lines 247 and 258 of [main]: the events of the two best-rated genomes,
    built one after the other; playing them is left out. *)
Definition best_two_events (population : list Genome)
  (num_bars num_notes num_steps : Z) (pauses : bool) (key scale : string)
  (root bpm : Z)
  : result (list (Events.t Pitch B) * list (Events.t Pitch B)) :=
  best <- index population 0 ;;
  events <- genome_to_events best num_bars num_notes num_steps pauses
                             key scale root bpm ;;
  second <- index population 1 ;;
  events' <- genome_to_events second num_bars num_notes num_steps pauses
                              key scale root bpm ;;
  OK (events, events').

End Playback.

(** ** Reference notions for the properties *)

(** A bit of a genome. *)
Definition is_bit (b : Z) : Prop := b = 0 \/ b = 1.

(** The runs of equal adjacent values of a list: each run as its value and
    the number of repetitions after the first. *)
Fixpoint runs (l : list Z) : list (Z * nat) :=
  match l with
  | [] => []
  | v :: rest =>
      match runs rest with
      | [] => [(v, O)]
      | (w, k) :: more => if v =? w then (w, S k) :: more
                          else (v, O) :: (w, k) :: more
      end
  end.

(** [runs] one value at a time, from the front and from the back. *)
Definition push_run (v : Z) (rs : list (Z * nat)) : list (Z * nat) :=
  match rs with
  | [] => [(v, O)]
  | (w, k) :: more => if v =? w then (w, S k) :: more
                      else (v, O) :: (w, k) :: more
  end.

Fixpoint extend_runs (rs : list (Z * nat)) (x : Z) : list (Z * nat) :=
  match rs with
  | [] => [(x, O)]
  | (w, k) :: more =>
      match more with
      | [] => if w =? x then [(w, S k)] else [(w, k); (x, O)]
      | _ :: _ => (w, k) :: extend_runs more x
      end
  end.

(** A stored entry is a rest, with pitch index 0 and velocity 0, or a note
    of velocity 127 with a pitch index below 8. *)
Definition entry_ok (note v : Z) : Prop :=
  (v = 0 /\ note = 0) \/ (v = 127 /\ note < 8).

(** The test of line 61 on a note window. *)
Definition rest_window (pauses : bool) (note : list Z) : bool :=
  decoded_value pauses note >=? 2 ^ (BITS_PER_NOTE - 1).

(** What holds of the melody dictionary after the windows [done]. *)
Definition stored_invariant {B : Type} `{BeatArith B} (pauses : bool)
  (note_length : B) (done : list (list Z)) (melody : Melody Z B) : Prop :=
  decoded_state pauses note_length (length done) melody
  /\ Forall2 entry_ok (notes melody) (velocity melody)
  /\ count_occ Z.eq_dec (velocity melody) 0
     = length (filter (rest_window pauses) done)
  /\ (pauses = false \/ Forall (fun w => 0 <= int_from_bits w) done ->
      Forall (fun note => 0 <= note) (notes melody))
  /\ (forall i a b,
        nth_error (notes melody) i = Some a ->
        nth_error (notes melody) (S i) = Some b ->
        nth_error (velocity melody) (S i) = Some 127 ->
        a <> b)
  /\ (pauses = false ->
      let rs := runs (map (decoded_value false) done) in
      melody = mkMelody (map fst rs) (repeat 127 (length rs))
                        (map (fun r => tied note_length (snd r)) rs)).

Arguments track {Pitch B} _.
Arguments channel {Pitch B} _.
Arguments pitch {Pitch B} _.
Arguments time {Pitch B} _.
Arguments duration {Pitch B} _.
Arguments volume {Pitch B} _.

(** A note written for entry [j] of the melody, when the loop is at entry
    [i] with the velocities [velocities] left and the clock at [clock]. *)
Definition written_for {Pitch B : Type} `{BeatArith B}
  (melody : Melody (list Pitch) B) (i : nat)
  (velocities : list Z) (clock : B) (note : MidiNote Pitch B) : Prop :=
  track note = 0 /\ channel note = 0 /\ volume note > 0
  /\ exists j layer,
       (i <= j)%nat
       /\ nth_error velocities (j - i) = Some (volume note)
       /\ In layer (notes melody)
       /\ nth_error layer j = Some (pitch note)
       /\ nth_error (beat melody) j = Some (duration note)
       /\ time note
          = fold_left beat_add (firstn (j - i) (skipn i (beat melody))) clock.


(** A genome of three note windows, 3, a rest and 1, and the melody it
    decodes to with pauses, two steps and [sample_scale]. *)
Definition sample_genome : Genome := [1; 1; 0; 0; 1; 0; 0; 1; 1; 0; 0; 0].

Definition sample_melody : Melody (list Z) float :=
  mkMelody [[53; 48; 50]; [57; 52; 53]] [127; 0; 127]
           [0x1.5555555555555p+0%float; 0x1.5555555555555p+0%float;
            0x1.5555555555555p+0%float].

(** A rated population of four genomes. *)
Definition sample_population_fitness : list (Genome * Z) :=
  [([0; 0; 0; 0], 1); ([1; 1; 1; 1], 5); ([0; 1; 0; 1], 3);
   ([0; 1; 1; 1], 3)].

(** ** int_from_bits in the arithmetic of the program

    [from pyo import *] puts [math.pow] in place of the built-in [pow], so
    every term [bit * pow(2, index)] of line 36 is a float, [sum] adds
    floats and [int] converts the float sum back to an integer.  All these
    floats hold integers, so binary64 is modelled on [Z]: a finite value is
    the integer it holds. *)

Inductive binary64 : Type :=
| Finite (n : Z)
| Infinite (negative : bool)
| NaN.

(** The nearest binary64 value of an integer, ties to the even significand
    of 53 bits: integers below [2^53] in magnitude are kept, larger ones
    keep their 53 leading bits, and a magnitude that rounds to [2^1024]
    gives an infinity. *)
Definition round_to_binary64 (n : Z) : binary64 :=
  let a := Z.abs n in
  if a <? 2 ^ 53 then Finite n
  else
    let shift := Z.log2 a - 52 in
    let q := a / 2 ^ shift in
    let r := a mod 2 ^ shift in
    let half := 2 ^ (shift - 1) in
    let q' := if (half <? r) || ((r =? half) && Z.odd q) then q + 1 else q in
    let v := q' * 2 ^ shift in
    if 2 ^ 1024 <=? v then Infinite (n <? 0) else Finite (Z.sgn n * v).

(** The integer held by a value of the standard library's specification of
    IEEE 754 floats, to compare [round_to_binary64] with its rounding. *)
Definition binary64_of_spec (x : spec_float) : binary64 :=
  match x with
  | S754_zero _ => Finite 0
  | S754_infinity negative => Infinite negative
  | S754_nan => NaN
  | S754_finite negative m e =>
      Finite (if negative then - Z.shiftl (Z.pos m) e
              else Z.shiftl (Z.pos m) e)
  end.

(** [math.pow(2, index)] for an index of [enumerate]: the power is a float
    up to [2^1023]; from 1024 on [math.pow] raises [OverflowError]. *)
Definition math_pow_2 (index : Z) : result binary64 :=
  if index <? 1024 then OK (Finite (2 ^ index)) else Error OverflowError.

(** The conversion of the integer operand of [int * float]: it raises
    [OverflowError] when the nearest float is infinite. *)
Definition binary64_of_int (n : Z) : result binary64 :=
  match round_to_binary64 n with
  | Infinite _ => Error OverflowError
  | x => OK x
  end.

(** [x * y] and [x + y] on floats: no exception, the exact result rounded. *)
Definition binary64_mul (x y : binary64) : binary64 :=
  match x, y with
  | Finite a, Finite b => round_to_binary64 (a * b)
  | Finite a, Infinite s | Infinite s, Finite a =>
      if a =? 0 then NaN else Infinite (xorb s (a <? 0))
  | Infinite s, Infinite s' => Infinite (xorb s s')
  | NaN, _ | _, NaN => NaN
  end.

Definition binary64_add (x y : binary64) : binary64 :=
  match x, y with
  | Finite a, Finite b => round_to_binary64 (a + b)
  | Finite _, Infinite s | Infinite s, Finite _ => Infinite s
  | Infinite s, Infinite s' => if Bool.eqb s s' then Infinite s else NaN
  | NaN, _ | _, NaN => NaN
  end.

(** [sum(l)] on floats: left to right from the integer 0.  (From CPython
    3.12 on [sum] also carries the rounding errors along; the result is the
    same wherever every partial sum is exact.) *)
Definition binary64_sum (l : list binary64) : binary64 :=
  fold_left binary64_add l (Finite 0).

(** [int(x)] on a float. *)
Definition int_of_binary64 (x : binary64) : result Z :=
  match x with
  | Finite n => OK n
  | Infinite _ => Error OverflowError
  | NaN => Error ValueError
  end.

(** One term [bit * pow(2, index)]: the call of [pow] comes before the
    conversion of [bit]. *)
Definition bit_term (entry : Z * Z) : result binary64 :=
  let '(index, bit) := entry in
  power <- math_pow_2 index ;;
  x <- binary64_of_int bit ;;
  OK (binary64_mul x power).

(** Line 36 as the program runs it. *)
Definition int_from_bits_binary64 (bits : list Z) : result Z :=
  terms <- comprehension bit_term (enumerate bits) ;;
  int_of_binary64 (binary64_sum terms).

(** ** The decoder with the program's int_from_bits

    [genome_to_melody] once more, with the value of each note window
    computed in floats as the program computes it.  On genomes of bits it
    is [genome_to_melody] ([genome_to_melody_binary64_exact]); on other
    lists of integers it raises where [int_from_bits_binary64] does. *)

Section CodecBinary64.
Context {Pitch B : Type} `{BeatArith B}.
Variable EventScale : string -> string -> Z -> list Pitch.

(** Lines 56 to 59.  The integer that [int] returns is a float's value, so
    the float remainder [integer % pow(2, 3)] is exact and [int] of it is
    the integer remainder. *)
Definition decoded_value_binary64 (pauses : bool) (note : list Z)
  : result Z :=
  integer <- int_from_bits_binary64 note ;;
  OK (if negb pauses then integer mod 2 ^ (BITS_PER_NOTE - 1) else integer).

(** Lines 56 to 71. *)
Definition decode_note_binary64 (pauses : bool) (note_length : B)
  (melody : Melody Z B) (note : list Z) : result (Melody Z B) :=
  integer <- decoded_value_binary64 pauses note ;;
  if integer >=? 2 ^ (BITS_PER_NOTE - 1) then
    OK (mkMelody (notes melody ++ [0])
                 (velocity melody ++ [0])
                 (beat melody ++ [note_length]))
  else if (Z.of_nat (length (notes melody)) >? 0)
          && (last (notes melody) 0 =? integer) then
    beat' <- add_to_last beat_add (beat melody) note_length ;;
    OK (mkMelody (notes melody) (velocity melody) beat')
  else
    OK (mkMelody (notes melody ++ [integer])
                 (velocity melody ++ [127])
                 (beat melody ++ [note_length])).

Definition decode_notes_binary64 (genome : Genome) (num_bars num_notes : Z)
  (pauses : bool) (note_length : B) : result (Melody Z B) :=
  for_each (decode_note_binary64 pauses note_length)
           (note_windows genome num_bars num_notes)
           (mkMelody [] [] []).

Definition genome_to_melody_binary64 (genome : Genome)
  (num_bars num_notes num_steps : Z) (pauses : bool)
  (key scale : string) (root : Z) : result (Melody (list Pitch) B) :=
  note_length <- true_div_4 num_notes ;;
  let scl := EventScale key scale root in
  melody <- decode_notes_binary64 genome num_bars num_notes pauses
                                  note_length ;;
  steps <- pitch_layers scl (notes melody) num_steps ;;
  OK (mkMelody steps (velocity melody) (beat melody)).

End CodecBinary64.

(** * Properties *)

(** *** Lemmas on [int_from_bits] *)

Lemma fold_left_add_shift (l : list Z) (a : Z) :
  fold_left Z.add l a = a + fold_left Z.add l 0.
Proof.
  revert a; induction l as [|x l IH]; intros a; simpl.
  - lia.
  - rewrite IH, (IH x). lia.
Qed.

Lemma sum_cons (x : Z) (l : list Z) : sum (x :: l) = x + sum l.
Proof. unfold sum; simpl. apply fold_left_add_shift. Qed.

Lemma enumerate_from_succ (bits : list Z) (s : Z) :
  0 <= s ->
  sum (map (fun '(index, bit) => bit * 2 ^ index) (enumerate_from (s + 1) bits))
  = 2 * sum (map (fun '(index, bit) => bit * 2 ^ index) (enumerate_from s bits)).
Proof.
  revert s; induction bits as [|b bits IH]; intros s Hs.
  - reflexivity.
  - cbn [enumerate_from map]. rewrite !sum_cons.
    rewrite (IH (s + 1)) by lia.
    rewrite Z.pow_add_r by lia. change (2 ^ 1) with 2. lia.
Qed.

Lemma int_from_bits_nil : int_from_bits [] = 0.
Proof. reflexivity. Qed.

Lemma int_from_bits_cons (b : Z) (bits : list Z) :
  int_from_bits (b :: bits) = b + 2 * int_from_bits bits.
Proof.
  unfold int_from_bits, enumerate. cbn [enumerate_from map].
  rewrite sum_cons, enumerate_from_succ by lia.
  change (2 ^ 0) with 1. lia.
Qed.

Lemma int_from_bits_app (l1 l2 : list Z) :
  int_from_bits (l1 ++ l2)
  = int_from_bits l1 + 2 ^ Z.of_nat (length l1) * int_from_bits l2.
Proof.
  induction l1 as [|b l1 IH].
  - cbn [app length]. rewrite int_from_bits_nil.
    change (2 ^ Z.of_nat 0) with 1. lia.
  - simpl app. rewrite !int_from_bits_cons, IH.
    change (length (b :: l1)) with (S (length l1)).
    rewrite Nat2Z.inj_succ, Z.pow_succ_r by lia. lia.
Qed.

Lemma weighted_sum_snoc (bits : list Z) (b : Z) :
  weighted_sum (bits ++ [b])
  = weighted_sum bits + b * 2 ^ Z.of_nat (length bits).
Proof.
  unfold weighted_sum. rewrite length_app. simpl length.
  rewrite Nat.add_1_r. simpl sigma.
  rewrite nth_middle. f_equal.
  assert (E : forall n, (n <= length bits)%nat ->
            sigma n (fun i => nth i (bits ++ [b]) 0 * 2 ^ Z.of_nat i)
            = sigma n (fun i => nth i bits 0 * 2 ^ Z.of_nat i)).
  { induction n as [|n IHn]; intros Hn; simpl.
    - reflexivity.
    - rewrite IHn by lia. rewrite app_nth1 by lia. reflexivity. }
  apply E. lia.
Qed.

Lemma int_from_bits_weighted_sum (bits : list Z) :
  int_from_bits bits = weighted_sum bits.
Proof.
  induction bits as [|b bits IH] using rev_ind.
  - reflexivity.
  - rewrite int_from_bits_app, weighted_sum_snoc, IH.
    rewrite int_from_bits_cons, int_from_bits_nil. lia.
Qed.

Lemma int_from_bits_binary_expansion (k : nat) :
  forall n, 0 <= n < 2 ^ Z.of_nat k ->
            int_from_bits (binary_expansion k n) = n.
Proof.
  induction k as [|k IH]; intros n Hn.
  - cbn [binary_expansion]. rewrite int_from_bits_nil.
    change (2 ^ Z.of_nat 0) with 1 in Hn. lia.
  - simpl binary_expansion. rewrite int_from_bits_cons.
    rewrite Nat2Z.inj_succ, Z.pow_succ_r in Hn by lia.
    rewrite IH.
    + pose proof (Z.div_mod n 2). lia.
    + split.
      * apply Z.div_pos; lia.
      * apply Z.div_lt_upper_bound; lia.
Qed.

(** ** The two beat arithmetics are lawful *)

(** The integer test of [float_of_int] is the overflow of the rounding:
    [FLOAT_INT_LIMIT] is the first integer that rounds to infinity. *)
Lemma float_int_limit_overflows :
  binary_normalize prec emax FLOAT_INT_LIMIT 0 false = S754_infinity false
  /\ binary_normalize prec emax (FLOAT_INT_LIMIT - 1) 0 false
     = S754_finite false (2 ^ 53 - 1) 971.
Proof. split; vm_compute; reflexivity. Qed.

Lemma float_true_div_4_returns (n : Z) :
  n <> 0 -> Z.abs n < FLOAT_INT_LIMIT -> exists q, float_true_div_4 n = OK q.
Proof.
  intros Hn Hlim. unfold float_true_div_4, float_of_int.
  destruct (FLOAT_INT_LIMIT <=? Z.abs n) eqn:E.
  - apply Z.leb_le in E. lia.
  - cbn [bind]. destruct (n =? 0) eqn:E0.
    + apply Z.eqb_eq in E0. contradiction.
    + eexists; reflexivity.
Qed.

Lemma float_true_div_4_raises (n : Z) (e : exn) :
  float_true_div_4 n = Error e -> e = ZeroDivisionError \/ e = OverflowError.
Proof.
  unfold float_true_div_4, float_of_int.
  destruct (FLOAT_INT_LIMIT <=? Z.abs n); cbn [bind].
  - intros E. injection E as <-. right. reflexivity.
  - destruct (n =? 0); [|discriminate].
    intros E. injection E as <-. left. reflexivity.
Qed.

#[export] Instance float_beats_laws : BeatArithLaws float.
Proof.
  constructor.
  - exact float_true_div_4_returns.
  - exact float_true_div_4_raises.
Qed.

Lemma exact_true_div_4_returns (n : Z) :
  n <> 0 -> exists q, exact_true_div_4 n = OK q.
Proof.
  intros Hn. unfold exact_true_div_4.
  destruct (n =? 0) eqn:E0.
  - apply Z.eqb_eq in E0. contradiction.
  - eexists; reflexivity.
Qed.

Lemma exact_true_div_4_raises (n : Z) (e : exn) :
  exact_true_div_4 n = Error e -> e = ZeroDivisionError \/ e = OverflowError.
Proof.
  unfold exact_true_div_4. destruct (n =? 0); [|discriminate].
  intros E. injection E as <-. left. reflexivity.
Qed.

#[export] Instance exact_beats_laws : BeatArithLaws Q.
Proof.
  constructor.
  - intros n Hn _. exact (exact_true_div_4_returns n Hn).
  - exact exact_true_div_4_raises.
Qed.

(** ** Facts on the helpers *)

Lemma for_each_invariant {S A : Type} (body : S -> A -> result S)
  (P : nat -> S -> Prop) :
  (forall n s x, P n s -> exists s', body s x = OK s' /\ P (Datatypes.S n) s') ->
  forall l n s, P n s ->
    exists s', for_each body l s = OK s' /\ P (n + length l)%nat s'.
Proof.
  intros Hbody l; induction l as [|x l IH]; intros n s Hs.
  - exists s. rewrite Nat.add_0_r. split; [reflexivity | assumption].
  - destruct (Hbody n s x Hs) as [s1 [E1 P1]].
    destruct (IH (Datatypes.S n) s1 P1) as [s2 [E2 P2]].
    exists s2. cbn [for_each bind]. rewrite E1. cbn [bind]. split; [exact E2|].
    cbn [length]. rewrite Nat.add_succ_r. exact P2.
Qed.

Lemma for_each_ext {S A : Type} (body : S -> A -> result S) (l1 l2 : list A) :
  Forall2 (fun x y => forall s, body s x = body s y) l1 l2 ->
  forall s, for_each body l1 s = for_each body l2 s.
Proof.
  induction 1 as [|x y l1 l2 Hxy _ IH]; intros s.
  - reflexivity.
  - cbn [for_each]. rewrite Hxy. destruct (body s y); cbn [bind]; auto.
Qed.

Lemma comprehension_Forall2 {A B : Type} (f : A -> result B) (l : list A) :
  forall ys, comprehension f l = OK ys -> Forall2 (fun x y => f x = OK y) l ys.
Proof.
  induction l as [|x l IH]; intros ys E; cbn [comprehension] in E.
  - injection E as <-. constructor.
  - destruct (f x) as [y|e] eqn:Ex; cbn [bind] in E; [|discriminate].
    destruct (comprehension f l) as [ys'|e] eqn:El; cbn [bind] in E;
      [|discriminate].
    injection E as <-. constructor; auto.
Qed.

Lemma comprehension_returns {A B : Type} (f : A -> result B) (l : list A) :
  (forall x, In x l -> exists y, f x = OK y) ->
  exists ys, comprehension f l = OK ys.
Proof.
  induction l as [|x l IH]; intros Hf.
  - exists []. reflexivity.
  - destruct (Hf x (or_introl eq_refl)) as [y Ey].
    destruct IH as [ys Eys]; [intros z Hz; apply Hf; right; exact Hz|].
    exists (y :: ys). cbn [comprehension]. rewrite Ey. cbn [bind].
    rewrite Eys. reflexivity.
Qed.

Lemma comprehension_raises {A B : Type} (f : A -> result B)
  (P : exn -> Prop) (l : list A) (e : exn) :
  (forall x e', In x l -> f x = Error e' -> P e') ->
  comprehension f l = Error e -> P e.
Proof.
  induction l as [|x l IH]; intros Hf E; cbn [comprehension] in E.
  - discriminate.
  - destruct (f x) as [y|e'] eqn:Ex; cbn [bind] in E.
    + destruct (comprehension f l) as [ys|e'] eqn:El; cbn [bind] in E;
        [discriminate|].
      injection E as <-. apply IH; [|reflexivity].
      intros z e'' Hz. apply Hf. right. exact Hz.
    + injection E as <-. apply (Hf x e'); [left; reflexivity | exact Ex].
Qed.

Lemma Forall2_nth_error {A B : Type} (R : A -> B -> Prop) (l : list A)
  (l' : list B) :
  Forall2 R l l' ->
  forall i x, nth_error l i = Some x ->
              exists y, nth_error l' i = Some y /\ R x y.
Proof.
  induction 1 as [|a b l l' Hab _ IH]; intros i x Hx.
  - destruct i; discriminate.
  - destruct i as [|i]; cbn [nth_error] in *.
    + injection Hx as <-. exists b. auto.
    + apply IH. exact Hx.
Qed.

Lemma add_to_last_snoc {B : Type} (add : B -> B -> B) (l : list B) (b x : B) :
  add_to_last add (l ++ [b]) x = OK (l ++ [add b x]).
Proof.
  induction l as [|a l IH].
  - reflexivity.
  - cbn [app add_to_last]. destruct (l ++ [b]) as [|z zs] eqn:E.
    + destruct l; discriminate.
    + rewrite IH. reflexivity.
Qed.

Lemma range_length (n : Z) : length (range n) = Z.to_nat n.
Proof. unfold range. rewrite length_map, length_seq. reflexivity. Qed.

Lemma range_nth_error (n : Z) (i : nat) :
  (i < Z.to_nat n)%nat -> nth_error (range n) i = Some (Z.of_nat i).
Proof.
  intros Hi. unfold range. rewrite nth_error_map.
  rewrite nth_error_nth' with (d := 0%nat) by (rewrite length_seq; exact Hi).
  rewrite seq_nth by exact Hi. reflexivity.
Qed.

Lemma range_In (n x : Z) : In x (range n) -> 0 <= x < n.
Proof.
  unfold range. rewrite in_map_iff. intros [k [<- Hk]].
  apply in_seq in Hk. lia.
Qed.

(** ** The exact value and the value the program computes *)

Lemma int_from_bits_of_bits (bits : list Z) :
  Forall is_bit bits ->
  0 <= int_from_bits bits < 2 ^ Z.of_nat (length bits).
Proof.
  induction 1 as [|b bits Hb _ IH].
  - rewrite int_from_bits_nil. cbn. lia.
  - rewrite int_from_bits_cons. cbn [length].
    rewrite Nat2Z.inj_succ, Z.pow_succ_r by lia.
    destruct Hb as [-> | ->]; lia.
Qed.

Lemma Forall_slice {A : Type} (P : A -> Prop) (l : list A) (a b : Z) :
  Forall P l -> Forall P (slice l a b).
Proof.
  intros Hl. unfold slice.
  assert (Hs : forall n l', Forall P l' -> Forall P (skipn n l')).
  { induction n as [|n IH]; intros l' Hl'; [exact Hl'|].
    destruct Hl'; cbn [skipn]; [constructor | apply IH; assumption]. }
  assert (Hf : forall n l', Forall P l' -> Forall P (firstn n l')).
  { induction n as [|n IH]; intros l' Hl'; [constructor|].
    destruct Hl'; cbn [firstn]; constructor; [assumption|].
    apply IH; assumption. }
  apply Hf, Hs, Hl.
Qed.

(** [round_to_binary64] is the rounding of the standard library's
    specification of binary64 around the places where it changes: the last
    exact integers, ties to both sides, and the overflow threshold. *)
Lemma round_to_binary64_agrees_with_spec :
  Forall (fun n => round_to_binary64 n
                   = binary64_of_spec (binary_normalize prec emax n 0 false))
         [0; 1; -1; 2 ^ 53 - 1; 2 ^ 53; 2 ^ 53 + 1; 2 ^ 53 + 2; 2 ^ 53 + 3;
          - (2 ^ 53 + 1); - (2 ^ 53 + 3); 2 ^ 54 - 1; 2 ^ 54 + 2; 2 ^ 54 + 6;
          2 ^ 55 + 3; 2 ^ 55 + 4; 2 ^ 55 + 5; 2 ^ 55 + 12; 3 * 2 ^ 700 + 1;
          2 ^ 1024 - 2 ^ 970 - 1; 2 ^ 1024 - 2 ^ 970; - (2 ^ 1024 - 2 ^ 970);
          2 ^ 1024; 2 ^ 2000 + 1].
Proof.
  repeat (apply Forall_cons; [vm_compute; reflexivity|]). apply Forall_nil.
Qed.

Lemma round_to_binary64_small (n : Z) :
  Z.abs n < 2 ^ 53 -> round_to_binary64 n = Finite n.
Proof.
  intros Hn. unfold round_to_binary64. cbv zeta.
  apply Z.ltb_lt in Hn. rewrite Hn. reflexivity.
Qed.

Lemma round_to_binary64_pow2 (i : Z) :
  0 <= i < 1024 -> round_to_binary64 (2 ^ i) = Finite (2 ^ i).
Proof.
  intros Hi.
  assert (Hp : 0 < 2 ^ i) by (apply Z.pow_pos_nonneg; lia).
  destruct (Z_lt_ge_dec i 53) as [Hs|Hl].
  - apply round_to_binary64_small. rewrite Z.abs_eq by lia.
    apply Z.pow_lt_mono_r; lia.
  - unfold round_to_binary64. cbv zeta.
    rewrite (Z.abs_eq (2 ^ i)) by lia.
    rewrite Z.log2_pow2 by lia.
    assert (H53 : 2 ^ 53 <= 2 ^ i) by (apply Z.pow_le_mono_r; lia).
    assert (H1024 : 2 ^ i < 2 ^ 1024) by (apply Z.pow_lt_mono_r; lia).
    assert (Hs : 0 < 2 ^ (i - 52)) by (apply Z.pow_pos_nonneg; lia).
    assert (Hh : 0 < 2 ^ (i - 52 - 1)) by (apply Z.pow_pos_nonneg; lia).
    assert (E : 2 ^ i = 2 ^ 52 * 2 ^ (i - 52)).
    { rewrite <- Z.pow_add_r by lia. f_equal. lia. }
    assert (Hq : 2 ^ i / 2 ^ (i - 52) = 2 ^ 52).
    { rewrite E at 1. apply Z.div_mul. lia. }
    assert (Hr : 2 ^ i mod 2 ^ (i - 52) = 0).
    { rewrite E at 1. apply Z.mod_mul. lia. }
    rewrite Hq, Hr.
    replace (2 ^ i <? 2 ^ 53) with false by (symmetry; apply Z.ltb_ge; lia).
    replace (2 ^ (i - 52 - 1) <? 0) with false
      by (symmetry; apply Z.ltb_ge; lia).
    replace (0 =? 2 ^ (i - 52 - 1)) with false
      by (symmetry; apply Z.eqb_neq; lia).
    cbn [orb andb]. rewrite <- E.
    replace (2 ^ 1024 <=? 2 ^ i) with false by (symmetry; apply Z.leb_gt; lia).
    rewrite Z.sgn_pos by lia. f_equal. lia.
Qed.

(** The two readings of [float(n)], on [Z] and on [PrimFloat], raise on
    the same integers. *)
Lemma round_to_binary64_infinite (n : Z) :
  (exists negative, round_to_binary64 n = Infinite negative)
  <-> FLOAT_INT_LIMIT <= Z.abs n.
Proof.
  unfold round_to_binary64. cbv zeta.
  destruct (Z.abs n <? 2 ^ 53) eqn:E53.
  - apply Z.ltb_lt in E53. split.
    + intros [s Hs]. discriminate.
    + intros Hl. unfold FLOAT_INT_LIMIT in Hl. lia.
  - apply Z.ltb_ge in E53.
    set (a := Z.abs n) in *.
    destruct (Z.log2_spec a ltac:(lia)) as [Hlo Hhi].
    set (L := Z.log2 a) in *.
    assert (HL : 53 <= L).
    { destruct (Z_lt_ge_dec L 53) as [Hlt|]; [|lia]. exfalso.
      assert (2 ^ Z.succ L <= 2 ^ 53) by (apply Z.pow_le_mono_r; lia). lia. }
    assert (HP : 0 < 2 ^ (L - 52)) by (apply Z.pow_pos_nonneg; lia).
    assert (EP : 2 ^ L = 2 ^ 52 * 2 ^ (L - 52)).
    { rewrite <- Z.pow_add_r by lia. f_equal. lia. }
    assert (EP' : 2 ^ Z.succ L = 2 ^ 53 * 2 ^ (L - 52)).
    { rewrite <- Z.pow_add_r by lia. f_equal. lia. }
    assert (Ehalf : 2 ^ (L - 52) = 2 * 2 ^ (L - 52 - 1)).
    { rewrite <- Z.pow_succ_r by lia. f_equal. lia. }
    pose proof (Z.div_mod a (2 ^ (L - 52)) ltac:(lia)) as Hdm.
    pose proof (Z.mod_pos_bound a (2 ^ (L - 52)) HP) as Hr.
    set (P := 2 ^ (L - 52)) in *.
    set (half := 2 ^ (L - 52 - 1)) in *.
    set (q := a / P) in *. set (r := a mod P) in *.
    assert (Hq : 2 ^ 52 <= q < 2 ^ 53) by (split; nia).
    set (q' := if (half <? r) || (r =? half) && Z.odd q then q + 1 else q).
    assert (Hq' : q <= q' <= q + 1)
      by (unfold q'; destruct ((half <? r) || (r =? half) && Z.odd q); lia).
    assert (Hiff : 2 ^ 1024 <= q' * P <-> FLOAT_INT_LIMIT <= a).
    { destruct (Z_lt_ge_dec L 1023) as [Hlt|Hge];
        [|destruct (Z_le_gt_dec L 1023) as [Hle|Hgt]].
      - assert (2 ^ Z.succ L <= 2 ^ 1023) by (apply Z.pow_le_mono_r; lia).
        assert (q' * P <= 2 ^ 53 * P) by nia.
        unfold FLOAT_INT_LIMIT. split; intros; lia.
      - assert (EL : L = 1023) by lia.
        assert (EPc : P = 2 ^ 971) by (unfold P; rewrite EL; reflexivity).
        assert (Ehc : half = 2 ^ 970) by (unfold half; rewrite EL; reflexivity).
        unfold FLOAT_INT_LIMIT.
        destruct (Z_lt_ge_dec q (2 ^ 53 - 1)) as [Hqs|Hqb].
        + split; intros; nia.
        + assert (Eq : q = 2 ^ 53 - 1) by lia.
          unfold q'. rewrite Eq. change (Z.odd (2 ^ 53 - 1)) with true.
          rewrite andb_true_r.
          destruct (half <? r) eqn:Eh;
            [apply Z.ltb_lt in Eh | apply Z.ltb_ge in Eh];
            destruct (r =? half) eqn:Er;
            [apply Z.eqb_eq in Er | apply Z.eqb_neq in Er
            |apply Z.eqb_eq in Er | apply Z.eqb_neq in Er];
            cbn [orb]; rewrite EPc in *; rewrite Ehc in *;
            split; intros; lia.
      - assert (2 ^ 1024 <= 2 ^ L) by (apply Z.pow_le_mono_r; lia).
        assert (2 ^ 52 * P <= q' * P) by nia.
        unfold FLOAT_INT_LIMIT. split; intros; lia. }
    fold q'. destruct (2 ^ 1024 <=? q' * P) eqn:Ev.
    + apply Z.leb_le in Ev.
      split; [intros _; tauto | intros _; eexists; reflexivity].
    + apply Z.leb_gt in Ev. split; [intros [s Hs]; discriminate | intros Hl].
      apply Hiff in Hl. lia.
Qed.

Lemma binary64_of_int_raises (n : Z) (e : exn) :
  binary64_of_int n = Error e <-> float_of_int n = Error e.
Proof.
  unfold binary64_of_int, float_of_int.
  pose proof (round_to_binary64_infinite n) as Hinf.
  destruct (FLOAT_INT_LIMIT <=? Z.abs n) eqn:El.
  - apply Z.leb_le in El. apply Hinf in El. destruct El as [s ->].
    split; intros E; injection E as <-; reflexivity.
  - apply Z.leb_gt in El.
    destruct (round_to_binary64 n) as [m|s|] eqn:Er.
    + split; discriminate.
    + exfalso. assert (FLOAT_INT_LIMIT <= Z.abs n)
        by (apply Hinf; eexists; reflexivity). lia.
    + split; discriminate.
Qed.

Lemma bit_term_exact (index bit : Z) :
  is_bit bit -> 0 <= index < 1024 ->
  bit_term (index, bit) = OK (Finite (bit * 2 ^ index)).
Proof.
  intros Hb Hi. unfold bit_term, math_pow_2, binary64_of_int.
  replace (index <? 1024) with true by (symmetry; apply Z.ltb_lt; lia).
  cbn [bind].
  rewrite (round_to_binary64_small bit)
    by (destruct Hb as [-> | ->]; cbn; lia).
  cbn [bind binary64_mul].
  destruct Hb as [-> | ->].
  - rewrite Z.mul_0_l. rewrite round_to_binary64_small by (cbn; lia).
    reflexivity.
  - rewrite Z.mul_1_l. rewrite round_to_binary64_pow2 by lia. reflexivity.
Qed.

Lemma bit_term_raises (entry : Z * Z) (e : exn) :
  bit_term entry = Error e -> e = OverflowError.
Proof.
  destruct entry as [index bit]. unfold bit_term, math_pow_2, binary64_of_int.
  destruct (index <? 1024); cbn [bind].
  - destruct (round_to_binary64 bit); cbn [bind]; try discriminate.
    intros E. injection E as <-. reflexivity.
  - intros E. injection E as <-. reflexivity.
Qed.

(** The terms of a bit sequence are the powers of two of its one bits, as
    long as the indices stay below 1024. *)
Lemma bit_terms_exact (bits : list Z) :
  Forall is_bit bits ->
  forall start, 0 <= start -> start + Z.of_nat (length bits) <= 1024 ->
    comprehension bit_term (enumerate_from start bits)
    = OK (map Finite (map (fun '(index, bit) => bit * 2 ^ index)
                          (enumerate_from start bits))).
Proof.
  induction 1 as [|b bits Hb _ IH]; intros start Hs Hlen.
  - reflexivity.
  - cbn [length] in Hlen. cbn [enumerate_from comprehension map].
    rewrite bit_term_exact by (auto; lia). cbn [bind].
    rewrite IH by lia. reflexivity.
Qed.

(** From index 1024 on [math.pow] raises, whatever the bits are. *)
Lemma bit_terms_overflow (bits : list Z) :
  forall start, 0 <= start <= 1024 ->
    1024 < start + Z.of_nat (length bits) ->
    comprehension bit_term (enumerate_from start bits) = Error OverflowError.
Proof.
  induction bits as [|b bits IH]; intros start Hs Hlen.
  - cbn [length] in Hlen. lia.
  - cbn [enumerate_from comprehension].
    destruct (bit_term (start, b)) as [y|e] eqn:Et; cbn [bind].
    + destruct (Z_lt_ge_dec start 1024) as [Hlt|Hge].
      * rewrite IH by (cbn [length] in Hlen; lia). reflexivity.
      * unfold bit_term, math_pow_2 in Et.
        replace (start <? 1024) with false in Et
          by (symmetry; apply Z.ltb_ge; lia).
        discriminate.
    + rewrite (bit_term_raises _ _ Et). reflexivity.
Qed.

Lemma sum_nonneg (l : list Z) : Forall (fun z => 0 <= z) l -> 0 <= sum l.
Proof.
  induction 1 as [|z l Hz _ IH]; [cbn; lia|]. rewrite sum_cons. lia.
Qed.

(** Adding non-negative integers in binary64 is exact while the total
    stays below [2^53]. *)
Lemma binary64_add_exact (l : list Z) :
  Forall (fun z => 0 <= z) l ->
  forall a, 0 <= a -> a + sum l < 2 ^ 53 ->
    fold_left binary64_add (map Finite l) (Finite a) = Finite (a + sum l).
Proof.
  induction 1 as [|z l Hz Hl IH]; intros a Ha Hsum.
  - cbn. f_equal. lia.
  - rewrite sum_cons in Hsum |- *. pose proof (sum_nonneg l Hl) as Hnn.
    cbn [map fold_left binary64_add].
    rewrite round_to_binary64_small by (rewrite Z.abs_eq; lia).
    rewrite IH by lia. f_equal. lia.
Qed.

Lemma bit_values_nonneg (bits : list Z) :
  Forall is_bit bits ->
  forall start, 0 <= start ->
    Forall (fun z => 0 <= z)
           (map (fun '(index, bit) => bit * 2 ^ index)
                (enumerate_from start bits)).
Proof.
  induction 1 as [|b bits Hb _ IH]; intros start Hs; cbn [enumerate_from map].
  - constructor.
  - constructor; [|apply IH; lia].
    assert (0 <= 2 ^ start) by (apply Z.pow_nonneg; lia).
    destruct Hb as [-> | ->]; lia.
Qed.

(** On bits, the program computes the exact value as long as the sequence
    has at most 1024 elements and its value is below [2^53]. *)
Lemma int_from_bits_binary64_exact_value (bits : list Z) :
  Forall is_bit bits -> (length bits <= 1024)%nat ->
  int_from_bits bits < 2 ^ 53 ->
  int_from_bits_binary64 bits = OK (int_from_bits bits).
Proof.
  intros Hbits Hlen Hval. unfold int_from_bits_binary64, enumerate.
  rewrite bit_terms_exact by (auto; lia). cbn [bind].
  unfold binary64_sum.
  rewrite binary64_add_exact.
  - reflexivity.
  - apply bit_values_nonneg; [assumption | lia].
  - lia.
  - exact Hval.
Qed.

(** In particular on every sequence of at most 53 bits. *)
Lemma int_from_bits_binary64_exact (bits : list Z) :
  Forall is_bit bits -> (length bits <= 53)%nat ->
  int_from_bits_binary64 bits = OK (int_from_bits bits).
Proof.
  intros Hbits Hlen. apply int_from_bits_binary64_exact_value;
    [assumption | lia |].
  pose proof (int_from_bits_of_bits bits Hbits) as Hr.
  assert (2 ^ Z.of_nat (length bits) <= 2 ^ 53)
    by (apply Z.pow_le_mono_r; lia).
  lia.
Qed.

Lemma int_from_bits_binary64_overflow (bits : list Z) :
  (1024 < length bits)%nat ->
  int_from_bits_binary64 bits = Error OverflowError.
Proof.
  intros Hlen. unfold int_from_bits_binary64, enumerate.
  rewrite bit_terms_overflow by lia. reflexivity.
Qed.

Lemma binary_expansion_bits (k : nat) :
  forall n, Forall is_bit (binary_expansion k n)
            /\ length (binary_expansion k n) = k.
Proof.
  induction k as [|k IH]; intros n; cbn [binary_expansion length].
  - split; [constructor | reflexivity].
  - destruct (IH (n / 2)) as [Hb Hl]. split.
    + constructor; [|exact Hb].
      unfold is_bit. pose proof (Z.mod_pos_bound n 2). lia.
    + rewrite Hl. reflexivity.
Qed.

Lemma window_length {A : Type} (l : list A) (i : Z) :
  (length (slice l (i * BITS_PER_NOTE) (i * BITS_PER_NOTE + BITS_PER_NOTE))
   <= 4)%nat.
Proof.
  unfold slice, BITS_PER_NOTE. rewrite length_firstn.
  replace (i * 4 + 4 - i * 4) with 4 by lia.
  change (Z.to_nat 4) with 4%nat. lia.
Qed.

Lemma int_from_bits_same_value (bits bits' : list Z) :
  Forall is_bit bits -> Forall is_bit bits' ->
  length bits = length bits' ->
  int_from_bits bits = int_from_bits bits' ->
  bits = bits'.
Proof.
  intros Hbits. revert bits'.
  induction Hbits as [|b bits Hb _ IH]; intros bits' Hbits' Hlen Hval.
  - destruct bits'; [reflexivity | discriminate].
  - destruct bits' as [|b' bits']; [discriminate|].
    inversion Hbits' as [|? ? Hb' Hrest]; subst.
    rewrite !int_from_bits_cons in Hval. cbn [length] in Hlen.
    assert (b = b') by (destruct Hb as [-> | ->], Hb' as [-> | ->]; lia).
    subst b'. f_equal. apply IH; [assumption | lia | lia].
Qed.

Lemma int_from_bits_zeros (k : nat) : int_from_bits (repeat 0 k) = 0.
Proof.
  induction k as [|k IH]; [reflexivity|].
  cbn [repeat]. rewrite int_from_bits_cons, IH. reflexivity.
Qed.

Lemma Forall_is_bit_zeros (k : nat) : Forall is_bit (repeat 0 k).
Proof.
  induction k; cbn [repeat]; constructor; [left; reflexivity | assumption].
Qed.

(** *** The two decoders agree on genomes of bits *)

Lemma for_each_ext_in {S A : Type} (body body' : S -> A -> result S)
  (l : list A) :
  (forall x, In x l -> forall s, body s x = body' s x) ->
  forall s, for_each body l s = for_each body' l s.
Proof.
  induction l as [|x l IH]; intros Hbody s.
  - reflexivity.
  - cbn [for_each]. rewrite (Hbody x (or_introl eq_refl)).
    destruct (body' s x) as [s'|e]; cbn [bind]; [|reflexivity].
    apply IH. intros y Hy. apply Hbody. right. exact Hy.
Qed.

Lemma note_windows_of_bits (genome : Genome) (num_bars num_notes : Z) :
  Forall is_bit genome ->
  forall note, In note (note_windows genome num_bars num_notes) ->
               Forall is_bit note /\ (length note <= 4)%nat.
Proof.
  intros Hbits note Hin. unfold note_windows in Hin.
  apply in_map_iff in Hin. destruct Hin as [i [<- _]]. split.
  - apply Forall_slice. exact Hbits.
  - apply window_length.
Qed.

Section CodecBinary64Facts.
Context {Pitch B : Type} `{BeatArith B}.
Variable EventScale : string -> string -> Z -> list Pitch.

Lemma decode_note_binary64_exact (pauses : bool) (note_length : B)
  (melody : Melody Z B) (note : list Z) :
  Forall is_bit note -> (length note <= 53)%nat ->
  decode_note_binary64 pauses note_length melody note
  = decode_note pauses note_length melody note.
Proof.
  intros Hbits Hlen.
  unfold decode_note_binary64, decoded_value_binary64, decode_note,
    decoded_value.
  rewrite int_from_bits_binary64_exact by assumption.
  reflexivity.
Qed.

(** On a genome of bits the decoder with the program's [int_from_bits] is
    the decoder with the exact value. *)
Lemma genome_to_melody_binary64_exact (genome : Genome)
  (num_bars num_notes num_steps : Z) (pauses : bool) (key scale : string)
  (root : Z) :
  Forall is_bit genome ->
  genome_to_melody_binary64 EventScale genome num_bars num_notes num_steps
                            pauses key scale root
  = genome_to_melody EventScale genome num_bars num_notes num_steps pauses
                     key scale root.
Proof.
  intros Hbits. unfold genome_to_melody_binary64, genome_to_melody.
  destruct (true_div_4 num_notes) as [note_length|e]; cbn [bind];
    [|reflexivity].
  unfold decode_notes_binary64, decode_notes.
  rewrite (for_each_ext_in (decode_note_binary64 pauses note_length)
                           (decode_note pauses note_length)).
  - reflexivity.
  - intros note Hin melody.
    destruct (note_windows_of_bits genome num_bars num_notes Hbits note Hin)
      as [Hnote Hlen].
    apply decode_note_binary64_exact; [exact Hnote | lia].
Qed.

End CodecBinary64Facts.

(** Off the bits they differ: an element too large for a float makes the
    program raise where the exact value exists. *)
Lemma genome_to_melody_binary64_overflow :
  genome_to_melody_binary64 (B := float) sample_scale [2 ^ 1024; 0; 0; 0]
                            1 1 1 true "C" "major" 4
  = Error OverflowError
  /\ genome_to_melody (B := float) sample_scale [2 ^ 1024; 0; 0; 0]
                      1 1 1 true "C" "major" 4
     = OK (mkMelody [[48]] [0] [4%float]).
Proof. split; vm_compute; reflexivity. Qed.

(** ** Invariants of the decoding loop *)

Section CodecFacts.
Context {Pitch B : Type} `{BeatArithLaws B}.
Variable EventScale : string -> string -> Z -> list Pitch.

Lemma decoded_value_masked (note : list Z) :
  0 <= decoded_value false note < 2 ^ (BITS_PER_NOTE - 1).
Proof.
  unfold decoded_value. cbn [negb]. apply Z.mod_pos_bound. reflexivity.
Qed.

Lemma decoded_state_init (pauses : bool) (note_length : B) :
  decoded_state pauses note_length 0 (mkMelody [] [] []).
Proof.
  constructor; cbn; auto. exists []. auto.
Qed.

Lemma decode_note_preserves (pauses : bool) (note_length : B) (n : nat)
  (melody : Melody Z B) (note : list Z) :
  decoded_state pauses note_length n melody ->
  exists melody', decode_note pauses note_length melody note = OK melody'
                  /\ decoded_state pauses note_length (S n) melody'.
Proof.
  intros [Hv Hb Hs [ks [Hks Hn]]]. unfold decode_note.
  destruct (decoded_value pauses note >=? 2 ^ (BITS_PER_NOTE - 1)) eqn:Erest.
  - eexists; split; [reflexivity|]. constructor; cbn [notes velocity beat].
    + rewrite !length_app, Hv. reflexivity.
    + rewrite !length_app, Hb. reflexivity.
    + intros ->. pose proof (decoded_value_masked note) as Hm.
      apply Z.geb_le in Erest. lia.
    + exists (ks ++ [O]). rewrite !map_app, list_sum_app, Hks, Hn.
      cbn. split; [reflexivity | lia].
  - destruct ((Z.of_nat (length (notes melody)) >? 0)
              && (last (notes melody) 0 =? decoded_value pauses note))
      eqn:Etie.
    + apply andb_prop in Etie as [Hlen _].
      assert (Hne : ks <> []).
      { intros ->. cbn in Hks. rewrite Hks in Hb. cbn in Hb.
        rewrite <- Hb in Hlen. cbn in Hlen. discriminate. }
      destruct (exists_last Hne) as [ks' [k ->]].
      rewrite map_app in Hks. cbn [map] in Hks.
      rewrite Hks, add_to_last_snoc. cbn [bind].
      eexists; split; [reflexivity|].
      constructor; cbn [notes velocity beat].
      * exact Hv.
      * rewrite <- Hb, Hks, !length_app. reflexivity.
      * exact Hs.
      * exists (ks' ++ [S k]). rewrite !map_app in *. cbn [map tied].
        split; [reflexivity|].
        rewrite list_sum_app in *. cbn in *. lia.
    + eexists; split; [reflexivity|]. constructor; cbn [notes velocity beat].
      * rewrite !length_app, Hv. reflexivity.
      * rewrite !length_app, Hb. reflexivity.
      * intros Hp. apply Forall_app. split; [auto | repeat constructor].
      * exists (ks ++ [O]). rewrite !map_app, list_sum_app, Hks, Hn.
        cbn. split; [reflexivity | lia].
Qed.

(** The first sounding window opens an entry. *)
Lemma decode_note_first (pauses : bool) (note_length : B) (note : list Z)
  (v : Z) :
  decoded_value pauses note = v -> v < 2 ^ (BITS_PER_NOTE - 1) ->
  decode_note pauses note_length (mkMelody [] [] []) note
  = OK (mkMelody [v] [127] [note_length]).
Proof.
  intros Ev Hv. subst v. unfold decode_note. cbv zeta.
  destruct (decoded_value pauses note >=? 2 ^ (BITS_PER_NOTE - 1)) eqn:E.
  - apply Z.geb_le in E. lia.
  - reflexivity.
Qed.

(** A sounding window whose value is the last stored one extends the last
    duration. *)
Lemma decode_note_tie (pauses : bool) (note_length : B) (note : list Z)
  (v : Z) (stored velocities : list Z) (beats : list B) (b : B) :
  decoded_value pauses note = v -> v < 2 ^ (BITS_PER_NOTE - 1) ->
  decode_note pauses note_length
              (mkMelody (stored ++ [v]) velocities (beats ++ [b])) note
  = OK (mkMelody (stored ++ [v]) velocities
                 (beats ++ [beat_add b note_length])).
Proof.
  intros Ev Hv. subst v. unfold decode_note. cbv zeta. cbn [notes velocity beat].
  destruct (decoded_value pauses note >=? 2 ^ (BITS_PER_NOTE - 1)) eqn:E.
  - apply Z.geb_le in E. lia.
  - rewrite last_last, Z.eqb_refl, length_app. cbn [length].
    replace (Z.of_nat (length stored + 1) >? 0) with true
      by (symmetry; apply Z.gtb_lt; lia).
    cbn [andb]. rewrite add_to_last_snoc. reflexivity.
Qed.

Lemma note_windows_length (genome : Genome) (num_bars num_notes : Z) :
  length (note_windows genome num_bars num_notes)
  = Z.to_nat (num_bars * num_notes).
Proof. unfold note_windows. rewrite length_map. apply range_length. Qed.

Lemma decode_notes_state (genome : Genome) (num_bars num_notes : Z)
  (pauses : bool) (note_length : B) :
  exists stored,
    decode_notes genome num_bars num_notes pauses note_length = OK stored
    /\ decoded_state pauses note_length (Z.to_nat (num_bars * num_notes))
                     stored.
Proof.
  unfold decode_notes.
  destruct (for_each_invariant (decode_note pauses note_length)
              (decoded_state pauses note_length)
              (fun n s x => decode_note_preserves pauses note_length n s x)
              (note_windows genome num_bars num_notes) 0%nat
              (mkMelody [] [] []) (decoded_state_init pauses note_length))
    as [stored [E P]].
  exists stored. split; [exact E|].
  rewrite note_windows_length in P. exact P.
Qed.

Lemma scale_at_OK (scl : list Pitch) (i : Z) (p : Pitch) :
  scale_at scl i = OK p ->
  nth_error scl (Z.to_nat (i mod Z.of_nat (length scl))) = Some p.
Proof.
  unfold scale_at, index.
  destruct (Z.of_nat (length scl) =? 0); [discriminate|].
  destruct (nth_error scl _) as [q|]; [|discriminate].
  intros E. injection E as <-. reflexivity.
Qed.

Lemma scale_at_returns (scl : list Pitch) (i : Z) :
  scl <> [] -> exists p, scale_at scl i = OK p.
Proof.
  intros Hne. unfold scale_at, index.
  assert (Hlen : 0 < Z.of_nat (length scl)).
  { destruct scl; [contradiction | cbn [length]; lia]. }
  destruct (Z.of_nat (length scl) =? 0) eqn:E0.
  - apply Z.eqb_eq in E0. lia.
  - pose proof (Z.mod_pos_bound i _ Hlen) as Hm.
    destruct (nth_error scl (Z.to_nat (i mod Z.of_nat (length scl))))
      as [p|] eqn:En.
    + exists p. reflexivity.
    + apply nth_error_None in En. lia.
Qed.

Lemma pitch_layers_returns (scl : list Pitch) (stored : list Z)
  (num_steps : Z) :
  scl <> [] -> exists steps, pitch_layers scl stored num_steps = OK steps.
Proof.
  intros Hne. unfold pitch_layers.
  apply comprehension_returns. intros step _.
  apply comprehension_returns. intros note _.
  apply scale_at_returns. exact Hne.
Qed.

Lemma pitch_layers_length (scl : list Pitch) (stored : list Z)
  (num_steps : Z) (steps : list (list Pitch)) :
  pitch_layers scl stored num_steps = OK steps ->
  length steps = Z.to_nat num_steps
  /\ Forall (fun layer => length layer = length stored) steps.
Proof.
  intros E. apply comprehension_Forall2 in E. split.
  - rewrite <- (Forall2_length E). apply range_length.
  - clear -E. induction E as [|step layer l l' Hl _ IH]; constructor; auto.
    apply comprehension_Forall2 in Hl.
    symmetry. exact (Forall2_length Hl).
Qed.

Lemma pitch_layers_nth (scl : list Pitch) (stored : list Z)
  (num_steps : Z) (steps : list (list Pitch)) :
  pitch_layers scl stored num_steps = OK steps ->
  forall step i note,
    0 <= step < num_steps ->
    nth_error stored i = Some note ->
    exists layer p,
      nth_error steps (Z.to_nat step) = Some layer
      /\ nth_error layer i = Some p
      /\ nth_error scl (Z.to_nat ((note + step * 2)
                                    mod Z.of_nat (length scl))) = Some p.
Proof.
  intros E step i note Hstep Hnote.
  apply comprehension_Forall2 in E.
  assert (Hr : nth_error (range num_steps) (Z.to_nat step) = Some step).
  { rewrite range_nth_error by lia. f_equal. lia. }
  destruct (Forall2_nth_error _ _ _ E _ _ Hr) as [layer [Hlayer El]].
  apply comprehension_Forall2 in El.
  destruct (Forall2_nth_error _ _ _ El _ _ Hnote) as [p [Hp Ep]].
  exists layer, p. split; [exact Hlayer|]. split; [exact Hp|].
  apply scale_at_OK. exact Ep.
Qed.

Lemma pitch_layers_nil (scl : list Pitch) (num_steps : Z) :
  pitch_layers scl [] num_steps = OK (repeat [] (Z.to_nat num_steps)).
Proof.
  unfold pitch_layers. rewrite <- (range_length num_steps).
  cbn [comprehension].
  induction (range num_steps) as [|step l IH].
  - reflexivity.
  - cbn [comprehension bind length repeat] in *. rewrite IH. reflexivity.
Qed.

(** [genome_to_melody] returns exactly when its three stages do. *)
Lemma genome_to_melody_OK (genome : Genome)
  (num_bars num_notes num_steps : Z) (pauses : bool) (key scale : string)
  (root : Z) (melody : Melody (list Pitch) B) :
  genome_to_melody EventScale genome num_bars num_notes num_steps pauses
                   key scale root = OK melody ->
  exists note_length stored,
    true_div_4 num_notes = OK note_length
    /\ decode_notes genome num_bars num_notes pauses note_length = OK stored
    /\ pitch_layers (EventScale key scale root) (notes stored) num_steps
       = OK (notes melody)
    /\ velocity melody = velocity stored
    /\ beat melody = beat stored.
Proof.
  unfold genome_to_melody. intros E.
  destruct (true_div_4 num_notes) as [nl|e] eqn:En; cbn [bind] in E;
    [|discriminate].
  destruct (decode_notes genome num_bars num_notes pauses nl)
    as [stored|e] eqn:Ed; cbn [bind] in E; [|discriminate].
  destruct (pitch_layers (EventScale key scale root) (notes stored) num_steps)
    as [steps|e] eqn:Es; cbn [bind] in E; [|discriminate].
  injection E as <-. exists nl, stored. cbn [notes velocity beat].
  repeat split; try reflexivity; assumption.
Qed.

Lemma genome_to_melody_returns (genome : Genome)
  (num_bars num_notes num_steps : Z) (pauses : bool) (key scale : string)
  (root : Z) :
  num_notes <> 0 -> convertible num_notes ->
  EventScale key scale root <> [] ->
  exists melody,
    genome_to_melody EventScale genome num_bars num_notes num_steps pauses
                     key scale root = OK melody.
Proof.
  intros Hn Hc Hscl. unfold genome_to_melody.
  destruct (true_div_4_returns num_notes Hn Hc) as [nl ->]. cbn [bind].
  destruct (decode_notes_state genome num_bars num_notes pauses nl)
    as [stored [-> _]]. cbn [bind].
  destruct (pitch_layers_returns (EventScale key scale root) (notes stored)
                                 num_steps Hscl) as [steps ->].
  cbn [bind]. eexists; reflexivity.
Qed.

Lemma scale_at_raises (scl : list Pitch) (i : Z) (e : exn) :
  scale_at scl i = Error e -> e <> ValueError.
Proof.
  unfold scale_at, index.
  destruct (Z.of_nat (length scl) =? 0).
  - intros E. injection E as <-. discriminate.
  - destruct (nth_error scl _); [discriminate|].
    intros E. injection E as <-. discriminate.
Qed.

Lemma pitch_layers_raises (scl : list Pitch) (stored : list Z)
  (num_steps : Z) (e : exn) :
  pitch_layers scl stored num_steps = Error e -> e <> ValueError.
Proof.
  unfold pitch_layers.
  apply (comprehension_raises _ (fun e => e <> ValueError)).
  intros step e1 _.
  apply (comprehension_raises _ (fun e => e <> ValueError)).
  intros note e2 _. apply scale_at_raises.
Qed.

(** [genome_to_melody] itself never raises [ValueError]. *)
Lemma genome_to_melody_raises (genome : Genome)
  (num_bars num_notes num_steps : Z) (pauses : bool) (key scale : string)
  (root : Z) (e : exn) :
  genome_to_melody EventScale genome num_bars num_notes num_steps pauses
                   key scale root = Error e ->
  e <> ValueError.
Proof.
  unfold genome_to_melody.
  destruct (true_div_4 num_notes) as [nl|e1] eqn:En; cbn [bind].
  - destruct (decode_notes_state genome num_bars num_notes pauses nl)
      as [stored [-> _]]. cbn [bind].
    destruct (pitch_layers (EventScale key scale root) (notes stored) num_steps)
      as [steps|e2] eqn:Es; cbn [bind]; [discriminate|].
    intros E. injection E as <-. exact (pitch_layers_raises _ _ _ _ Es).
  - intros E. injection E as <-.
    destruct (true_div_4_raises num_notes e1 En) as [-> | ->]; discriminate.
Qed.

(** The shape of every melody that [genome_to_melody] returns. *)
Lemma genome_to_melody_shape (genome : Genome)
  (num_bars num_notes num_steps : Z) (pauses : bool) (key scale : string)
  (root : Z) (melody : Melody (list Pitch) B) :
  genome_to_melody EventScale genome num_bars num_notes num_steps pauses
                   key scale root = OK melody ->
  length (velocity melody) = length (beat melody)
  /\ length (notes melody) = Z.to_nat num_steps
  /\ Forall (fun layer => length layer = length (beat melody)) (notes melody).
Proof.
  intros E.
  destruct (genome_to_melody_OK _ _ _ _ _ _ _ _ _ E)
    as [nl [stored [_ [Ed [El [Ev Eb]]]]]].
  destruct (decode_notes_state genome num_bars num_notes pauses nl)
    as [stored' [Ed' St]].
  rewrite Ed in Ed'. injection Ed' as <-.
  destruct St as [Sv Sb _ _].
  destruct (pitch_layers_length _ _ _ _ El) as [Hlen Hall].
  split; [rewrite Ev, Eb, Sv, Sb; reflexivity|].
  split; [exact Hlen|].
  rewrite Eb, Sb. exact Hall.
Qed.

End CodecFacts.

(** ** The value of a note window *)

Lemma int_from_bits_short (w : list Z) :
  (length w <= 4)%nat ->
  int_from_bits w = nth 0 w 0 + 2 * nth 1 w 0 + 4 * nth 2 w 0 + 8 * nth 3 w 0.
Proof.
  intros Hw.
  destruct w as [|x0 [|x1 [|x2 [|x3 [|x4 w]]]]];
    repeat rewrite int_from_bits_cons; try rewrite int_from_bits_nil;
    cbn [nth]; try lia.
  cbn [length] in Hw. lia.
Qed.

Lemma window_value (genome : Genome) (i : Z) :
  0 <= i ->
  int_from_bits (slice genome (i * BITS_PER_NOTE)
                       (i * BITS_PER_NOTE + BITS_PER_NOTE))
  = nth (Z.to_nat (4 * i)) genome 0
    + 2 * nth (Z.to_nat (4 * i) + 1) genome 0
    + 4 * nth (Z.to_nat (4 * i) + 2) genome 0
    + 8 * nth (Z.to_nat (4 * i) + 3) genome 0.
Proof.
  intros Hi. unfold slice, BITS_PER_NOTE.
  replace (i * 4 + 4 - i * 4) with 4 by lia.
  replace (i * 4) with (4 * i) by lia.
  change (Z.to_nat 4) with 4%nat.
  rewrite int_from_bits_short by (rewrite length_firstn; lia).
  rewrite !nth_firstn, !nth_skipn. cbn [Nat.ltb Nat.leb].
  rewrite Nat.add_0_r. reflexivity.
Qed.

Lemma nth_padded (genome : Genome) (size k : nat) :
  (k < size)%nat ->
  nth k (firstn size (genome ++ repeat 0 size)) 0 = nth k genome 0.
Proof.
  intros Hk. rewrite nth_firstn.
  destruct (k <? size)%nat eqn:E; [|apply Nat.ltb_ge in E; lia].
  destruct (Nat.lt_ge_cases k (length genome)) as [Hlt|Hge].
  - apply app_nth1. exact Hlt.
  - rewrite app_nth2 by exact Hge. rewrite nth_repeat.
    symmetry. apply nth_overflow. exact Hge.
Qed.

Lemma Forall2_map_same {A C : Type} (R : C -> C -> Prop) (f g : A -> C)
  (l : list A) :
  (forall x, In x l -> R (f x) (g x)) -> Forall2 R (map f l) (map g l).
Proof.
  induction l as [|x l IH]; intros Hfg; cbn [map]; constructor.
  - apply Hfg. left. reflexivity.
  - apply IH. intros y Hy. apply Hfg. right. exact Hy.
Qed.

(** ** Properties of the decoder *)

Section CodecProperties.
Context {Pitch B : Type} `{BeatArithLaws B}.
Variable EventScale : string -> string -> Z -> list Pitch.

Lemma decode_note_ext (pauses : bool) (note_length : B) (note note' : list Z) :
  int_from_bits note = int_from_bits note' ->
  forall melody, decode_note pauses note_length melody note
                 = decode_note pauses note_length melody note'.
Proof.
  intros E melody. unfold decode_note, decoded_value. rewrite E. reflexivity.
Qed.

(** The decoder reads a genome as if it were cut, or padded with zeros, to
    [num_bars * num_notes * BITS_PER_NOTE] bits. *)
Lemma decode_notes_padded (genome : Genome) (num_bars num_notes : Z)
  (pauses : bool) (note_length : B) :
  let size := Z.to_nat (num_bars * num_notes * BITS_PER_NOTE) in
  decode_notes (firstn size (genome ++ repeat 0 size)) num_bars num_notes
               pauses note_length
  = decode_notes genome num_bars num_notes pauses note_length.
Proof.
  intros size. unfold decode_notes. apply for_each_ext.
  unfold note_windows. apply Forall2_map_same.
  intros i Hi. apply range_In in Hi.
  apply decode_note_ext. rewrite !window_value by lia.
  assert (Hs : (Z.to_nat (4 * i) + 3 < size)%nat).
  { unfold size, BITS_PER_NOTE. lia. }
  rewrite !nth_padded by lia. reflexivity.
Qed.

(** C1 (amended): with zero bars and at least one note per bar, decoding
    the empty genome raises nothing and returns the empty melody: no
    velocity, no duration, and every pitch layer empty. *)
Theorem empty_genome_decodes_to_empty_melody (num_notes num_steps : Z)
  (pauses : bool) (key scale : string) (root : Z) :
  1 <= num_notes -> convertible num_notes ->
  genome_to_melody EventScale [] 0 num_notes num_steps pauses key scale root
  = OK (mkMelody (repeat [] (Z.to_nat num_steps)) [] []).
Proof.
  intros Hn Hc. unfold genome_to_melody.
  destruct (true_div_4_returns num_notes) as [nl ->]; [lia | exact Hc |].
  cbn [bind]. unfold decode_notes, note_windows.
  change (0 * num_notes) with 0. cbn [range Z.to_nat seq map for_each bind].
  cbn [notes velocity beat]. rewrite pitch_layers_nil. reflexivity.
Qed.

(** C3 (amended): a genome whose length differs from
    [num_bars * num_notes * BITS_PER_NOTE] is decoded without any error:
    the melody returned is that of the genome cut, or padded with zero
    bits, to that length. *)
Theorem mismatched_genome_is_decoded (genome : Genome)
  (num_bars num_notes num_steps : Z) (pauses : bool) (key scale : string)
  (root : Z) :
  1 <= num_bars -> 1 <= num_notes -> convertible num_notes ->
  EventScale key scale root <> [] ->
  Z.of_nat (length genome) <> num_bars * num_notes * BITS_PER_NOTE ->
  let size := Z.to_nat (num_bars * num_notes * BITS_PER_NOTE) in
  exists melody,
    genome_to_melody EventScale genome num_bars num_notes num_steps pauses
                     key scale root = OK melody
    /\ genome_to_melody EventScale (firstn size (genome ++ repeat 0 size))
                        num_bars num_notes num_steps pauses key scale root
       = OK melody.
Proof.
  intros Hb Hn Hc Hscl _ size.
  destruct (genome_to_melody_returns EventScale genome num_bars num_notes
              num_steps pauses key scale root) as [melody E];
    [lia | exact Hc | exact Hscl |].
  exists melody. split; [exact E|].
  rewrite <- E. unfold genome_to_melody.
  destruct (true_div_4 num_notes) as [nl|e]; cbn [bind]; [|reflexivity].
  subst size. rewrite decode_notes_padded. reflexivity.
Qed.

(** C5: without pauses every decoded value lies below
    [2 ^ (BITS_PER_NOTE - 1) = 8], so the test that selects the rest branch
    is false for every window, and every entry of a melody that
    [genome_to_melody] returns has velocity 127; it does return one when
    the note length exists and the scale is not empty. *)
Theorem masked_notes_are_sounding (genome : Genome)
  (num_bars num_notes num_steps : Z) (key scale : string) (root : Z) :
  2 ^ (BITS_PER_NOTE - 1) = 8
  /\ (forall note, 0 <= decoded_value false note < 8
                   /\ (decoded_value false note >=? 2 ^ (BITS_PER_NOTE - 1))
                      = false)
  /\ (forall melody,
        genome_to_melody EventScale genome num_bars num_notes num_steps false
                         key scale root = OK melody ->
        Forall (eq 127) (velocity melody))
  /\ (num_notes <> 0 -> convertible num_notes ->
      EventScale key scale root <> [] ->
      exists melody,
        genome_to_melody EventScale genome num_bars num_notes num_steps false
                         key scale root = OK melody).
Proof.
  split; [reflexivity|]. split; [|split].
  - intros note. pose proof (decoded_value_masked note) as Hm.
    change (2 ^ (BITS_PER_NOTE - 1)) with 8 in *. split; [exact Hm|].
    destruct (decoded_value false note >=? 8) eqn:E; [|reflexivity].
    apply Z.geb_le in E. lia.
  - intros melody E.
    destruct (genome_to_melody_OK EventScale _ _ _ _ _ _ _ _ _ E)
      as [nl [stored [_ [Ed [_ [Ev _]]]]]].
    destruct (decode_notes_state genome num_bars num_notes false nl)
      as [stored' [Ed' St]].
    rewrite Ed in Ed'. injection Ed' as <-.
    rewrite Ev. apply (ds_sounding _ _ _ _ St). reflexivity.
  - intros Hn Hc Hscl.
    exact (genome_to_melody_returns EventScale genome num_bars num_notes
             num_steps false key scale root Hn Hc Hscl).
Qed.

(** C7: in every melody that [genome_to_melody] returns, layer [step]
    holds, at every position, the scale pitch at index
    [(note + step * 2) mod len(scl)] for the pitch index [note] stored at
    that position, and the single velocity and duration sequences of the
    melody are those of the stored melody, the same for all layers; a
    melody is returned when the note length exists and the scale is not
    empty. *)
Theorem layers_follow_scale (genome : Genome)
  (num_bars num_notes num_steps : Z) (pauses : bool) (key scale : string)
  (root : Z) :
  let scl := EventScale key scale root in
  (forall melody,
     genome_to_melody EventScale genome num_bars num_notes num_steps pauses
                      key scale root = OK melody ->
     exists note_length stored,
       true_div_4 num_notes = OK note_length
       /\ decode_notes genome num_bars num_notes pauses note_length
          = OK stored
       /\ velocity melody = velocity stored
       /\ beat melody = beat stored
       /\ length (notes melody) = Z.to_nat num_steps
       /\ Forall (fun layer => length layer = length (notes stored))
                 (notes melody)
       /\ forall step i note,
            0 <= step < num_steps ->
            nth_error (notes stored) i = Some note ->
            exists layer p,
              nth_error (notes melody) (Z.to_nat step) = Some layer
              /\ nth_error layer i = Some p
              /\ nth_error scl (Z.to_nat ((note + step * 2)
                                            mod Z.of_nat (length scl)))
                 = Some p)
  /\ (num_notes <> 0 -> convertible num_notes -> scl <> [] ->
      exists melody,
        genome_to_melody EventScale genome num_bars num_notes num_steps
                         pauses key scale root = OK melody).
Proof.
  intros scl. split.
  - intros melody E.
    destruct (genome_to_melody_OK EventScale _ _ _ _ _ _ _ _ _ E)
      as [nl [stored [En [Ed [El [Ev Eb]]]]]].
    exists nl, stored.
    destruct (pitch_layers_length _ _ _ _ El) as [Hlen Hall].
    repeat split; try assumption.
    intros step i note Hstep Hnote.
    exact (pitch_layers_nth _ _ _ _ El step i note Hstep Hnote).
  - intros Hn Hc Hscl.
    exact (genome_to_melody_returns EventScale genome num_bars num_notes
             num_steps pauses key scale root Hn Hc Hscl).
Qed.

End CodecProperties.

(** ** The shape of the melody and the MIDI-saving path *)

Section ShapeProperties.
Context {Pitch B : Type} `{BeatArithLaws B}.
Variable EventScale : string -> string -> Z -> list Pitch.

(** pyo builds a scale with at least one pitch for every recognized key
    and scale name. *)
Hypothesis EventScale_recognized :
  forall key scale root,
    In key KEYS -> In scale SCALES -> EventScale key scale root <> [].

Lemma index_returns {A : Type} (l : list A) (i : nat) :
  (i < length l)%nat -> exists x, index l i = OK x.
Proof.
  intros Hi. unfold index.
  destruct (nth_error l i) as [x|] eqn:E.
  - exists x. reflexivity.
  - apply nth_error_None in E. lia.
Qed.

Lemma add_notes_returns (melody : Melody (list Pitch) B) (i : nat)
  (time : B) (vel : Z) :
  Forall (fun layer => length layer = length (beat melody)) (notes melody) ->
  (i < length (beat melody))%nat ->
  exists added, add_notes melody i time vel = OK added.
Proof.
  intros Hall Hi. unfold add_notes. apply comprehension_returns.
  intros step Hstep. rewrite Forall_forall in Hall.
  destruct (index_returns step i) as [p ->];
    [rewrite (Hall step Hstep); exact Hi|].
  destruct (index_returns (beat melody) i Hi) as [d ->].
  cbn [bind]. eexists; reflexivity.
Qed.

Lemma write_notes_returns (melody : Melody (list Pitch) B) :
  Forall (fun layer => length layer = length (beat melody)) (notes melody) ->
  forall velocities i time,
    (i + length velocities = length (beat melody))%nat ->
    exists written, write_notes melody i velocities time = OK written.
Proof.
  intros Hall velocities.
  induction velocities as [|vel rest IH]; intros i time Hlen.
  - exists []. reflexivity.
  - cbn [length] in Hlen. cbn [write_notes].
    assert (Hi : (i < length (beat melody))%nat) by lia.
    assert (Ha : exists added,
               (if vel >? 0 then add_notes melody i time vel else OK [])
               = OK added).
    { destruct (vel >? 0); [|eexists; reflexivity].
      apply add_notes_returns; assumption. }
    destruct Ha as [added ->]. cbn [bind].
    destruct (index_returns (beat melody) i Hi) as [d ->]. cbn [bind].
    destruct (IH (S i) (beat_add time d)) as [later ->]; [lia|].
    cbn [bind]. eexists; reflexivity.
Qed.

(** [save_genome_to_midi] never raises the [ValueError] of its shape
    check. *)
Lemma save_genome_to_midi_raises (filename : string) (genome : Genome)
  (num_bars num_notes num_steps : Z) (pauses : bool) (key scale : string)
  (root bpm : Z) (e : exn) :
  save_genome_to_midi EventScale filename genome num_bars num_notes
                      num_steps pauses key scale root bpm = Error e ->
  e <> ValueError.
Proof.
  unfold save_genome_to_midi.
  destruct (genome_to_melody EventScale genome num_bars num_notes num_steps
                             pauses key scale root) as [melody|e1] eqn:E;
    cbn [bind].
  - destruct (genome_to_melody_shape EventScale _ _ _ _ _ _ _ _ _ E)
      as [Hvb [_ Hlayers]].
    destruct (notes melody) as [|first layers] eqn:En.
    + cbn [index nth_error bind]. intros E1. injection E1 as <-. discriminate.
    + cbn [index nth_error bind].
      assert (Hf : length first = length (beat melody))
        by (inversion Hlayers; assumption).
      rewrite <- Hvb, Hf, Hvb, Nat.eqb_refl. cbn [negb orb].
      unfold addTempo. destruct (bpm =? 0); cbn [bind].
      { intros E1. injection E1 as <-. discriminate. }
      destruct (write_notes_returns melody) with (velocities := velocity melody)
        (i := 0%nat) (time := beat_zero) as [written ->].
      * rewrite En. exact Hlayers.
      * exact Hvb.
      * discriminate.
  - intros E1. injection E1 as <-.
    exact (genome_to_melody_raises EventScale _ _ _ _ _ _ _ _ _ E).
Qed.

(** C6: every melody that [genome_to_melody] returns has one pitch layer
    per step, each as long as the velocity sequence, which is as long as
    the duration sequence, so [save_genome_to_midi] never raises the
    [ValueError] of its shape check; for steps >= 1, a recognized key and
    scale and a note length that exists, the melody is returned, its first
    layer exists and both comparisons of the shape check of lines 142 and
    143 find equal lengths. *)
Theorem melody_shape_is_consistent (filename : string) (genome : Genome)
  (num_bars num_notes num_steps : Z) (pauses : bool) (key scale : string)
  (root bpm : Z) :
  (forall melody,
     genome_to_melody EventScale genome num_bars num_notes num_steps pauses
                      key scale root = OK melody ->
     length (velocity melody) = length (beat melody)
     /\ forall k, 0 <= k < num_steps ->
          exists layer, nth_error (notes melody) (Z.to_nat k) = Some layer
                        /\ length layer = length (velocity melody))
  /\ save_genome_to_midi EventScale filename genome num_bars num_notes
                         num_steps pauses key scale root bpm
     <> Error ValueError
  /\ (1 <= num_steps -> In key KEYS -> In scale SCALES ->
      num_notes <> 0 -> convertible num_notes ->
      exists melody first,
        genome_to_melody EventScale genome num_bars num_notes num_steps
                         pauses key scale root = OK melody
        /\ index (notes melody) 0 = OK first
        /\ length first = length (beat melody)
        /\ length first = length (velocity melody)).
Proof.
  split; [|split].
  - intros melody E.
    destruct (genome_to_melody_shape EventScale _ _ _ _ _ _ _ _ _ E)
      as [Hvb [Hlen Hlayers]].
    split; [exact Hvb|]. intros k Hk.
    destruct (nth_error (notes melody) (Z.to_nat k)) as [layer|] eqn:Ek.
    + exists layer. split; [reflexivity|].
      rewrite Forall_forall in Hlayers.
      rewrite Hvb. apply Hlayers. eapply nth_error_In. exact Ek.
    + apply nth_error_None in Ek. lia.
  - intros E. exact (save_genome_to_midi_raises _ _ _ _ _ _ _ _ _ _ _ E eq_refl).
  - intros Hsteps Hkey Hscale Hn Hc.
    pose proof (EventScale_recognized key scale root Hkey Hscale) as Hscl.
    destruct (genome_to_melody_returns EventScale genome num_bars num_notes
                num_steps pauses key scale root Hn Hc Hscl) as [melody E].
    destruct (genome_to_melody_shape EventScale _ _ _ _ _ _ _ _ _ E)
      as [Hvb [Hlen Hlayers]].
    exists melody.
    destruct (notes melody) as [|first layers] eqn:En;
      [cbn [length] in Hlen; lia|].
    exists first.
    assert (Hf : length first = length (beat melody))
      by (inversion Hlayers; assumption).
    split; [exact E|]. split; [reflexivity|]. split; [exact Hf|].
    rewrite Hf, Hvb. reflexivity.
Qed.

End ShapeProperties.

(** ** Durations *)

Lemma exact_fold_left_shift (l : list Q) (a : Q) :
  (fold_left Qplus l a == a + fold_left Qplus l 0)%Q.
Proof.
  revert a; induction l as [|x l IH]; intros a; cbn [fold_left].
  - ring.
  - rewrite IH, (IH (0 + x)%Q). ring.
Qed.

Lemma exact_tied (note_length : Q) (k : nat) :
  (tied note_length k == inject_Z (Z.of_nat (S k)) * note_length)%Q.
Proof.
  induction k as [|k IH].
  - cbn [tied]. change (inject_Z (Z.of_nat 1)) with 1%Q. ring.
  - cbn [tied beat_add exact_beats]. rewrite IH.
    rewrite (Nat2Z.inj_succ (S k)). unfold Z.succ. rewrite inject_Z_plus.
    ring.
Qed.

Lemma exact_beat_sum_tied (note_length : Q) (ks : list nat) :
  (beat_sum (map (tied note_length) ks)
   == inject_Z (Z.of_nat (list_sum (map S ks))) * note_length)%Q.
Proof.
  unfold beat_sum. cbn [beat_add beat_zero exact_beats].
  induction ks as [|k ks IH].
  - cbn. ring.
  - cbn [map fold_left]. rewrite exact_fold_left_shift, IH.
    rewrite exact_tied.
    change (list_sum (S k :: map S ks)) with (S k + list_sum (map S ks))%nat.
    rewrite Nat2Z.inj_add, inject_Z_plus. ring.
Qed.

Section BeatProperties.
Context {Pitch : Type}.
Variable EventScale : string -> string -> Z -> list Pitch.

(** Every duration is the note length accumulated once per window the
    entry stands for, and no window is lost. *)
Lemma durations_are_tied_note_lengths {B : Type} `{BeatArithLaws B}
  (genome : Genome) (num_bars num_notes num_steps : Z) (pauses : bool)
  (key scale : string) (root : Z) :
  num_notes <> 0 -> convertible num_notes ->
  EventScale key scale root <> [] ->
  exists note_length melody ks,
    true_div_4 num_notes = OK note_length
    /\ genome_to_melody EventScale genome num_bars num_notes num_steps
                        pauses key scale root = OK melody
    /\ beat melody = map (tied note_length) ks
    /\ list_sum (map S ks) = Z.to_nat (num_bars * num_notes).
Proof.
  intros Hn Hc Hscl.
  destruct (genome_to_melody_returns EventScale genome num_bars num_notes
              num_steps pauses key scale root Hn Hc Hscl) as [melody E].
  destruct (genome_to_melody_OK EventScale _ _ _ _ _ _ _ _ _ E)
    as [nl [stored [En [Ed [_ [_ Eb]]]]]].
  destruct (decode_notes_state genome num_bars num_notes pauses nl)
    as [stored' [Ed' St]].
  rewrite Ed in Ed'. injection Ed' as <-.
  destruct St as [_ _ _ [ks [Hks Hsum]]].
  exists nl, melody, ks. rewrite Eb. auto.
Qed.

(** C4: three note windows that all decode to 3, with one bar of three
    notes and no pauses, give a melody of exactly one entry, of velocity
    127 and of duration [3 * note_length] where [note_length] is
    [4 / float(3)]. *)
Theorem three_equal_notes_are_tied (genome : Genome) (num_steps : Z)
  (key scale : string) (root : Z) :
  EventScale key scale root <> [] ->
  map (decoded_value false) (note_windows genome 1 3) = [3; 3; 3] ->
  exists note_length melody,
    float_true_div_4 3 = OK note_length
    /\ genome_to_melody (B := float) EventScale genome 1 3 num_steps false
                        key scale root = OK melody
    /\ velocity melody = [127]
    /\ beat melody = [(3 * note_length)%float]
    /\ Forall (fun layer => length layer = 1%nat) (notes melody).
Proof.
  intros Hscl Hcodes.
  assert (Ed : decode_notes (B := float) genome 1 3 false
                 (4 / 3)%float
               = OK (mkMelody [3] [127] [(3 * (4 / 3))%float])).
  { unfold decode_notes.
    destruct (note_windows genome 1 3) as [|w0 [|w1 [|w2 [|w3 ws]]]];
      try discriminate Hcodes.
    cbn [map] in Hcodes. injection Hcodes as H0 H1 H2.
    cbn [for_each].
    rewrite (decode_note_first false _ w0 3 H0) by reflexivity.
    cbn [bind].
    pose proof (fun b => decode_note_tie (B := float) false (4 / 3)%float
                          w1 3 [] [127] [] b H1 eq_refl) as T1.
    pose proof (fun b => decode_note_tie (B := float) false (4 / 3)%float
                          w2 3 [] [127] [] b H2 eq_refl) as T2.
    cbn [app] in T1, T2. rewrite T1. cbn [bind]. rewrite T2.
    reflexivity. }
  destruct (pitch_layers_returns (EventScale key scale root) [3] num_steps
                                 Hscl) as [steps Es].
  exists (4 / 3)%float, (mkMelody steps [127] [(3 * (4 / 3))%float]).
  split; [reflexivity|]. split.
  - unfold genome_to_melody.
    change (true_div_4 3) with (OK (4 / 3)%float). cbn [bind].
    rewrite Ed. cbn [bind notes velocity beat]. rewrite Es. reflexivity.
  - cbn [notes velocity beat]. repeat split.
    exact (proj2 (pitch_layers_length _ _ _ _ Es)).
Qed.

(** C10 (amended): for every genome of any length, [num_bars >= 0] and
    [num_notes >= 1], each duration of the decoded melody is the note
    length added up once per window merged into the entry, and these
    windows number [num_bars * num_notes] in all; read in exact rational
    arithmetic the durations therefore sum to [4 * num_bars]. *)
Theorem durations_cover_all_windows (genome : Genome)
  (num_bars num_notes num_steps : Z) (pauses : bool) (key scale : string)
  (root : Z) :
  0 <= num_bars -> 1 <= num_notes ->
  EventScale key scale root <> [] ->
  (Z.abs num_notes < FLOAT_INT_LIMIT ->
   exists note_length melody ks,
     float_true_div_4 num_notes = OK note_length
     /\ genome_to_melody (B := float) EventScale genome num_bars num_notes
                         num_steps pauses key scale root = OK melody
     /\ beat melody = map (tied note_length) ks
     /\ Z.of_nat (list_sum (map S ks)) = num_bars * num_notes)
  /\ exists melody,
       genome_to_melody (B := Q) EventScale genome num_bars num_notes
                        num_steps pauses key scale root = OK melody
       /\ (beat_sum (beat melody) == inject_Z (4 * num_bars))%Q.
Proof.
  intros Hb Hn Hscl. split.
  - intros Hc.
    destruct (durations_are_tied_note_lengths (B := float) genome num_bars
                num_notes num_steps pauses key scale root)
      as [nl [melody [ks [En [E [Hks Hsum]]]]]];
      [lia | exact Hc | exact Hscl |].
    exists nl, melody, ks. repeat split; try assumption.
    rewrite Hsum. apply Z2Nat.id. apply Z.mul_nonneg_nonneg; lia.
  - destruct (durations_are_tied_note_lengths (B := Q) genome num_bars
                num_notes num_steps pauses key scale root)
      as [nl [melody [ks [En [E [Hks Hsum]]]]]];
      [lia | exact I | exact Hscl |].
    exists melody. split; [exact E|].
    rewrite Hks, exact_beat_sum_tied, Hsum.
    rewrite Z2Nat.id by (apply Z.mul_nonneg_nonneg; lia).
    cbn [true_div_4 exact_beats] in En. unfold exact_true_div_4 in En.
    destruct (num_notes =? 0) eqn:E0; [discriminate|].
    injection En as <-. apply Z.eqb_neq in E0.
    rewrite !inject_Z_mult. field.
    intros Hz. apply E0. unfold Qeq in Hz. cbn in Hz. lia.
Qed.

End BeatProperties.

(** ** The generation loop *)

Lemma insert_desc_length {A : Type} (key : A -> Z) (x : A) (l : list A) :
  length (insert_desc key x l) = S (length l).
Proof.
  induction l as [|y l IH]; cbn [insert_desc].
  - reflexivity.
  - destruct (key y >? key x); cbn [length]; [rewrite IH|]; reflexivity.
Qed.

Lemma sorted_desc_length {A : Type} (key : A -> Z) (l : list A) :
  length (sorted_desc key l) = length l.
Proof.
  induction l as [|x l IH]; cbn [sorted_desc fold_right].
  - reflexivity.
  - rewrite insert_desc_length. fold (sorted_desc key l). rewrite IH.
    reflexivity.
Qed.

Lemma insert_desc_Forall {A : Type} (key : A -> Z) (P : A -> Prop) (x : A)
  (l : list A) :
  P x -> Forall P l -> Forall P (insert_desc key x l).
Proof.
  intros Hx. induction 1 as [|y l Hy Hl IH]; cbn [insert_desc].
  - repeat constructor. exact Hx.
  - destruct (key y >? key x); repeat constructor; assumption.
Qed.

Lemma sorted_desc_Forall {A : Type} (key : A -> Z) (P : A -> Prop)
  (l : list A) :
  Forall P l -> Forall P (sorted_desc key l).
Proof.
  induction 1 as [|x l Hx Hl IH]; cbn [sorted_desc fold_right].
  - constructor.
  - apply insert_desc_Forall; assumption.
Qed.

Section GenerationProperties.
Variable RNG : Type.
Variable selection_pair :
  list Genome -> (Genome -> Z) -> Rand RNG (Genome * Genome).
Variable single_point_crossover :
  Genome -> Genome -> Rand RNG (Genome * Genome).
Variable mutation : Genome -> Z -> float -> Rand RNG Genome.

(** What the loop needs of the [Backbone] operators, as the specification
    describes them: selection returns two members of a non-empty
    population, crossover returns on two genomes of one length of at least
    2, mutation returns. *)
Hypothesis selection_pair_returns :
  forall population lookup rng,
    population <> [] ->
    exists a b rng',
      selection_pair population lookup rng = OK ((a, b), rng')
      /\ In a population /\ In b population.
Hypothesis single_point_crossover_returns :
  forall a b rng,
    length a = length b -> (2 <= length a)%nat ->
    exists c d rng', single_point_crossover a b rng = OK ((c, d), rng').
Hypothesis mutation_returns :
  forall genome num probability rng,
    exists genome' rng',
      mutation genome num probability rng = OK (genome', rng').

Lemma rand_for_each_invariant {S A : Type} (body : S -> A -> Rand RNG S)
  (P : nat -> S -> Prop) :
  (forall n s x rng, P n s ->
     exists s' rng', body s x rng = OK (s', rng') /\ P (Datatypes.S n) s') ->
  forall l n s rng, P n s ->
    exists s' rng', rand_for_each RNG body l s rng = OK (s', rng')
                    /\ P (n + length l)%nat s'.
Proof.
  intros Hbody l; induction l as [|x l IH]; intros n s rng Hs.
  - exists s, rng. rewrite Nat.add_0_r. split; [reflexivity | assumption].
  - destruct (Hbody n s x rng Hs) as [s1 [rng1 [E1 P1]]].
    destruct (IH (Datatypes.S n) s1 rng1 P1) as [s2 [rng2 [E2 P2]]].
    exists s2, rng2. cbn [rand_for_each]. unfold rand_bind at 1.
    rewrite E1. split; [exact E2|].
    cbn [length]. rewrite Nat.add_succ_r. exact P2.
Qed.

Lemma breed_returns (population : list Genome)
  (population_fitness : list (Genome * Z)) (num_mutations : Z)
  (mutation_probability : float) (size : nat) (next : list Genome) (j : Z)
  (rng : RNG) :
  population <> [] -> (2 <= size)%nat ->
  Forall (fun genome => length genome = size) population ->
  exists offspring_a offspring_b rng',
    breed RNG selection_pair single_point_crossover mutation population
          population_fitness num_mutations mutation_probability next j rng
    = OK (next ++ [offspring_a; offspring_b], rng').
Proof.
  intros Hne Hsize Hall. rewrite Forall_forall in Hall. unfold breed.
  destruct (selection_pair_returns population
              (fitness_lookup population_fitness) rng Hne)
    as [a [b [rng1 [E1 [Ha Hb]]]]].
  unfold rand_bind at 1. rewrite E1. cbn [fst snd].
  destruct (single_point_crossover_returns a b rng1)
    as [c [d [rng2 E2]]].
  { rewrite (Hall a Ha), (Hall b Hb). reflexivity. }
  { rewrite (Hall a Ha). exact Hsize. }
  unfold rand_bind at 1. rewrite E2. cbn [fst snd].
  destruct (mutation_returns c num_mutations mutation_probability rng2)
    as [c' [rng3 E3]].
  unfold rand_bind at 1. rewrite E3.
  destruct (mutation_returns d num_mutations mutation_probability rng3)
    as [d' [rng4 E4]].
  unfold rand_bind at 1. rewrite E4.
  exists c', d', rng4. reflexivity.
Qed.

(** C8 (amended): for a rated population of [n >= 2] genomes, all of one
    length of at least 2, one pass of the generation loop returns the
    population sorted, still of [n] genomes, and a next generation of
    exactly [2 * (n / 2)] genomes: [n] of them when [n] is even, [n - 1]
    when [n] is odd. *)
Theorem next_generation_size (population_fitness : list (Genome * Z))
  (num_mutations : Z) (mutation_probability : float) (size : nat)
  (rng : RNG) :
  let n := length population_fitness in
  (2 <= n)%nat -> (2 <= size)%nat ->
  Forall (fun e => length (fst e) = size) population_fitness ->
  exists population next rng',
    next_generation RNG selection_pair single_point_crossover mutation
                    population_fitness num_mutations mutation_probability
                    rng
    = OK ((population, next), rng')
    /\ length population = n
    /\ Z.of_nat (length next) = 2 * (Z.of_nat n / 2)
    /\ (Nat.even n = true -> length next = n)
    /\ (Nat.odd n = true -> S (length next) = n).
Proof.
  intros n Hn Hsize Hall. unfold next_generation.
  set (population := map fst (sorted_desc snd population_fitness)).
  assert (Hlen : length population = n).
  { unfold population. rewrite length_map, sorted_desc_length. reflexivity. }
  assert (Hne : population <> []).
  { intros E. rewrite E in Hlen. cbn in Hlen. lia. }
  assert (Hpop : Forall (fun genome => length genome = size) population).
  { unfold population. apply Forall_map.
    apply sorted_desc_Forall. exact Hall. }
  destruct (rand_for_each_invariant
              (breed RNG selection_pair single_point_crossover mutation
                     population population_fitness num_mutations
                     mutation_probability)
              (fun k next => length next = (2 + 2 * k)%nat))
    with (l := range (Z.quot (Z.of_nat (length population)) 2 - 1))
         (n := 0%nat) (s := firstn 2 population) (rng := rng)
    as [next [rng' [E Hnext]]].
  { intros k next j rng0 Hk.
    destruct (breed_returns population population_fitness num_mutations
                mutation_probability size next j rng0 Hne Hsize Hpop)
      as [a [b [rng1 Eb]]].
    exists (next ++ [a; b]), rng1. split; [exact Eb|].
    rewrite length_app, Hk. cbn [length]. lia. }
  { rewrite length_firstn, Hlen. lia. }
  exists population, next, rng'.
  unfold rand_bind at 1. rewrite E. unfold rand_ret.
  split; [reflexivity|]. split; [exact Hlen|].
  rewrite range_length, Hlen in Hnext.
  rewrite Z.quot_div_nonneg in Hnext by lia.
  assert (Hhalf : 1 <= Z.of_nat n / 2).
  { apply Z.div_le_lower_bound; lia. }
  assert (Hsz : Z.of_nat (length next) = 2 * (Z.of_nat n / 2)).
  { rewrite Hnext. lia. }
  split; [exact Hsz|].
  pose proof (Z.div_mod (Z.of_nat n) 2 ltac:(lia)) as Hdm.
  split.
  - intros Heven. apply Nat.even_spec in Heven. destruct Heven as [h Hh].
    assert (Z.of_nat n mod 2 = 0).
    { rewrite Hh, Nat2Z.inj_mul. change (Z.of_nat 2) with 2.
      rewrite Z.mul_comm. apply Z.mod_mul. lia. }
    lia.
  - intros Hodd. apply Nat.odd_spec in Hodd. destruct Hodd as [h Hh].
    assert (Z.of_nat n mod 2 = 1).
    { rewrite Hh, Nat2Z.inj_add, Nat2Z.inj_mul.
      change (Z.of_nat 2) with 2. change (Z.of_nat 1) with 1.
      rewrite Z.add_comm, Z.mul_comm, Z.mod_add by lia. reflexivity. }
    lia.
Qed.

End GenerationProperties.

(** ** The bit-to-integer utility *)

(** C9, as stated, fails in the float arithmetic of the program: 54 one
    bits are the binary expansion of [2^54 - 1], which is their weighted
    sum, and the program returns [2^54]; a sequence of 1025 bits raises
    [OverflowError] in [pow(2, 1024)]. *)
Lemma long_bit_sequences_are_rounded :
  binary_expansion 54 (2 ^ 54 - 1) = repeat 1 54
  /\ weighted_sum (repeat 1 54) = 2 ^ 54 - 1
  /\ int_from_bits_binary64 (repeat 1 54) = OK (2 ^ 54)
  /\ int_from_bits_binary64 (repeat 0 1025) = Error OverflowError.
Proof. repeat split; vm_compute; reflexivity. Qed.

(** C9: as the program computes it, [int_from_bits] maps the empty
    sequence to 0 and every sequence of at most 53 bits, each 0 or 1 and
    least-significant first, to the sum of [bit_i * 2^i], with no error; on
    the [k]-bit binary expansion of an integer [n] of [[0, 2^k)] it returns
    [n] for every [k <= 53].  A sequence of more than 1024 elements always
    raises [OverflowError]. *)
Theorem int_from_bits_is_weighted_sum_up_to_53_bits :
  int_from_bits_binary64 [] = OK 0
  /\ (forall bits, Forall is_bit bits -> (length bits <= 53)%nat ->
                   int_from_bits_binary64 bits = OK (weighted_sum bits))
  /\ (forall k n, (k <= 53)%nat -> 0 <= n < 2 ^ Z.of_nat k ->
                  int_from_bits_binary64 (binary_expansion k n) = OK n)
  /\ (forall bits, (1024 < length bits)%nat ->
                   int_from_bits_binary64 bits = Error OverflowError).
Proof.
  split; [reflexivity|]. split; [|split].
  - intros bits Hbits Hlen.
    rewrite int_from_bits_binary64_exact by assumption.
    rewrite int_from_bits_weighted_sum. reflexivity.
  - intros k n Hk Hn.
    destruct (binary_expansion_bits k n) as [Hbits Hlen].
    rewrite int_from_bits_binary64_exact by (auto; lia).
    rewrite int_from_bits_binary_expansion by exact Hn. reflexivity.
  - exact int_from_bits_binary64_overflow.
Qed.

Lemma int_from_bits_is_weighted_sum_up_to_53_bits_witness :
  int_from_bits_binary64 (binary_expansion 4 11) = OK 11.
Proof.
  apply (proj1 (proj2 (proj2 int_from_bits_is_weighted_sum_up_to_53_bits))
           4%nat 11).
  - lia.
  - vm_compute. split; [discriminate | reflexivity].
Defined.

(** ** The program on sample inputs *)

Lemma sample_scale_nonempty (key scale : string) (first : Z) :
  sample_scale key scale first <> [].
Proof. discriminate. Qed.

Lemma sample_selection_pair_returns (population : list Genome)
  (lookup : Genome -> Z) (rng : unit) :
  population <> [] ->
  exists a b rng',
    sample_selection_pair population lookup rng = OK ((a, b), rng')
    /\ In a population /\ In b population.
Proof.
  intros Hne. destruct population as [|a [|b rest]]; [contradiction | |].
  - exists a, a, rng. cbn. auto.
  - exists a, b, rng. cbn. auto.
Qed.

Lemma sample_single_point_crossover_returns (a b : Genome) (rng : unit) :
  length a = length b -> (2 <= length a)%nat ->
  exists c d rng', sample_single_point_crossover a b rng = OK ((c, d), rng').
Proof.
  intros Hlen _. unfold sample_single_point_crossover.
  rewrite Hlen, Nat.eqb_refl. cbn [negb]. eexists _, _, _. reflexivity.
Qed.

Lemma sample_mutation_returns (genome : Genome) (num : Z)
  (probability : float) (rng : unit) :
  exists genome' rng',
    sample_mutation genome num probability rng = OK (genome', rng').
Proof. eexists _, _. reflexivity. Qed.

(** C1, as stated, fails: with zero notes per bar the note length
    [4 / float(0)] raises before anything is decoded. *)
Lemma empty_genome_zero_notes_raises :
  genome_to_melody (B := float) sample_scale [] 0 0 1 false "C" "major" 4
  = Error ZeroDivisionError.
Proof. reflexivity. Qed.

Lemma empty_genome_decodes_to_empty_melody_witness :
  genome_to_melody (B := float) sample_scale [] 0 8 1 false "C" "major" 4
  = OK (mkMelody [[]] [] []).
Proof.
  apply (empty_genome_decodes_to_empty_melody (B := float) sample_scale
           8 1 false "C" "major" 4).
  - lia.
  - vm_compute. reflexivity.
Defined.

(** C2 fails on the code: with pauses, the window [0;0;0;1] is a rest,
    stored with pitch index 0, and the sounding window [0;0;0;0] after it
    finds its value 0 last in the stored notes.  The two windows give one
    entry of velocity 0 and of two note lengths, not a rest followed by a
    note of velocity 127. *)
Lemma rest_absorbs_following_zero_note :
  genome_to_melody (B := float) sample_scale [0; 0; 0; 1; 0; 0; 0; 0]
                   1 2 1 true "C" "major" 4
  = OK (mkMelody [[48]] [0] [4%float]).
Proof. reflexivity. Qed.

(** C3, as stated, fails: a genome of 3 bits where 4 are asked for is
    decoded, and nothing is raised. *)
Lemma short_genome_is_decoded :
  Z.of_nat (length [1; 1; 0]) <> 1 * 1 * BITS_PER_NOTE
  /\ genome_to_melody (B := float) sample_scale [1; 1; 0] 1 1 1 false
                      "C" "major" 4
     = OK (mkMelody [[53]] [127] [4%float]).
Proof. split; [discriminate | reflexivity]. Qed.

Lemma mismatched_genome_is_decoded_witness :
  exists melody,
    genome_to_melody (B := float) sample_scale [1; 1; 0] 1 1 1 false
                     "C" "major" 4 = OK melody
    /\ genome_to_melody (B := float) sample_scale [1; 1; 0; 0] 1 1 1 false
                        "C" "major" 4 = OK melody.
Proof.
  apply (mismatched_genome_is_decoded (B := float) sample_scale [1; 1; 0]
           1 1 1 false "C" "major" 4).
  - lia.
  - lia.
  - vm_compute. reflexivity.
  - apply sample_scale_nonempty.
  - discriminate.
Defined.

Lemma three_equal_notes_are_tied_witness :
  exists note_length melody,
    float_true_div_4 3 = OK note_length
    /\ genome_to_melody (B := float) sample_scale
                        [1; 1; 0; 0; 1; 1; 0; 1; 1; 1; 0; 0] 1 3 2 false
                        "C" "major" 4 = OK melody
    /\ velocity melody = [127]
    /\ beat melody = [(3 * note_length)%float]
    /\ Forall (fun layer => length layer = 1%nat) (notes melody).
Proof.
  apply (three_equal_notes_are_tied sample_scale
           [1; 1; 0; 0; 1; 1; 0; 1; 1; 1; 0; 0] 2 "C" "major" 4).
  - apply sample_scale_nonempty.
  - reflexivity.
Defined.

Lemma masked_notes_are_sounding_witness :
  exists melody,
    genome_to_melody (B := float) sample_scale [1; 1; 1; 1; 0; 1; 0; 1]
                     1 2 1 false "C" "major" 4 = OK melody
    /\ Forall (eq 127) (velocity melody).
Proof.
  destruct (masked_notes_are_sounding (B := float) sample_scale
              [1; 1; 1; 1; 0; 1; 0; 1] 1 2 1 "C" "major" 4)
    as [_ [_ [Hsound Hreturns]]].
  destruct Hreturns as [melody E].
  - discriminate.
  - vm_compute. reflexivity.
  - apply sample_scale_nonempty.
  - exists melody. split; [exact E | exact (Hsound melody E)].
Defined.

Lemma melody_shape_is_consistent_witness :
  exists melody first,
    genome_to_melody (B := float) sample_scale
                     [1; 1; 0; 0; 1; 0; 0; 1; 1; 0; 0; 0] 1 3 2 true
                     "C" "major" 4 = OK melody
    /\ index (notes melody) 0 = OK first
    /\ length first = length (beat melody)
    /\ length first = length (velocity melody).
Proof.
  destruct (melody_shape_is_consistent (B := float) sample_scale
              (fun key scale root _ _ => sample_scale_nonempty key scale root)
              "0/0/C-major-128-0.mid"
              [1; 1; 0; 0; 1; 0; 0; 1; 1; 0; 0; 0] 1 3 2 true
              "C" "major" 4 128) as [_ [_ Hreturns]].
  apply Hreturns.
  - lia.
  - cbn. tauto.
  - cbn. tauto.
  - discriminate.
  - vm_compute. reflexivity.
Defined.

Lemma layers_follow_scale_witness :
  exists melody,
    genome_to_melody (B := float) sample_scale
                     [1; 1; 0; 0; 1; 0; 0; 1; 1; 0; 0; 0] 1 3 2 true
                     "C" "major" 4 = OK melody.
Proof.
  apply (layers_follow_scale (B := float) sample_scale
           [1; 1; 0; 0; 1; 0; 0; 1; 1; 0; 0; 0] 1 3 2 true "C" "major" 4).
  - discriminate.
  - vm_compute. reflexivity.
  - apply sample_scale_nonempty.
Defined.

(** C8, as stated, fails: three rated genomes leave a next generation of
    two. *)
Lemma odd_population_shrinks :
  next_generation unit sample_selection_pair sample_single_point_crossover
                  sample_mutation
                  [([0; 0; 0; 0], 1); ([1; 1; 1; 1], 5); ([0; 1; 0; 1], 3)]
                  2 0.5%float tt
  = OK (([[1; 1; 1; 1]; [0; 1; 0; 1]; [0; 0; 0; 0]],
         [[1; 1; 1; 1]; [0; 1; 0; 1]]), tt).
Proof. reflexivity. Qed.

Lemma next_generation_size_witness :
  exists population next rng',
    next_generation unit sample_selection_pair sample_single_point_crossover
                    sample_mutation
                    [([0; 0; 0; 0], 1); ([1; 1; 1; 1], 5); ([0; 1; 0; 1], 3);
                     ([0; 1; 1; 1], 3)]
                    2 0.5%float tt
    = OK ((population, next), rng')
    /\ length population = 4%nat
    /\ Z.of_nat (length next) = 2 * (4 / 2)
    /\ (Nat.even 4 = true -> length next = 4%nat)
    /\ (Nat.odd 4 = true -> S (length next) = 4%nat).
Proof.
  apply (next_generation_size unit sample_selection_pair
           sample_single_point_crossover sample_mutation
           sample_selection_pair_returns
           sample_single_point_crossover_returns
           sample_mutation_returns
           [([0; 0; 0; 0], 1); ([1; 1; 1; 1], 5); ([0; 1; 0; 1], 3);
            ([0; 1; 1; 1], 3)]
           2 0.5%float 4%nat tt).
  - cbn. lia.
  - lia.
  - repeat constructor.
Defined.

(** C10, as stated, fails in the binary64 arithmetic of the program: ten
    note lengths [4 / float(10)] add up to [0x1.fffffffffffffp+1], printed
    3.9999999999999996 by Python, which is not [4 * 1]. *)
Lemma ten_notes_do_not_sum_to_four :
  genome_to_melody (B := float) sample_scale (repeat 0 40) 1 10 1 false
                   "C" "major" 4
  = OK (mkMelody [[48]] [127] [0x1.fffffffffffffp+1%float])
  /\ (beat_sum [0x1.fffffffffffffp+1%float] =? 4 * 1)%float = false.
Proof. split; reflexivity. Qed.

Lemma durations_cover_all_windows_witness :
  (Z.abs 10 < FLOAT_INT_LIMIT ->
   exists note_length melody ks,
     float_true_div_4 10 = OK note_length
     /\ genome_to_melody (B := float) sample_scale (repeat 0 40) 1 10 1 false
                         "C" "major" 4 = OK melody
     /\ beat melody = map (tied note_length) ks
     /\ Z.of_nat (list_sum (map S ks)) = 1 * 10)
  /\ exists melody,
       genome_to_melody (B := Q) sample_scale (repeat 0 40) 1 10 1 false
                        "C" "major" 4 = OK melody
       /\ (beat_sum (beat melody) == inject_Z (4 * 1))%Q.
Proof.
  apply (durations_cover_all_windows sample_scale (repeat 0 40) 1 10 1 false
           "C" "major" 4).
  - lia.
  - lia.
  - apply sample_scale_nonempty.
Defined.

(** ** More on [int_from_bits] *)

(** X1: on a sequence of [k <= 53] bits, each 0 or 1, the program's
    [int_from_bits] returns an integer of [[0, 2^k)]; a note window of a
    genome of bits is such a sequence, and the program decodes it to the
    exact value of its bits, an integer of [[0, 16)]. *)
Theorem int_from_bits_range (bits : list Z) :
  Forall is_bit bits ->
  ((length bits <= 53)%nat ->
   exists value,
     int_from_bits_binary64 bits = OK value
     /\ 0 <= value < 2 ^ Z.of_nat (length bits))
  /\ forall i, 0 <= i ->
       exists value,
         int_from_bits_binary64
           (slice bits (i * BITS_PER_NOTE) (i * BITS_PER_NOTE + BITS_PER_NOTE))
         = OK value
         /\ value = int_from_bits (slice bits (i * BITS_PER_NOTE)
                                         (i * BITS_PER_NOTE + BITS_PER_NOTE))
         /\ 0 <= value < 16.
Proof.
  intros Hbits. split.
  - intros Hlen. exists (int_from_bits bits). split.
    + apply int_from_bits_binary64_exact; assumption.
    + exact (int_from_bits_of_bits bits Hbits).
  - intros i Hi.
    pose proof (Forall_slice is_bit bits (i * BITS_PER_NOTE)
                  (i * BITS_PER_NOTE + BITS_PER_NOTE) Hbits) as Hw.
    pose proof (window_length bits i) as Hlen.
    eexists. split; [|split; [reflexivity|]].
    + apply int_from_bits_binary64_exact; [exact Hw | lia].
    + pose proof (int_from_bits_of_bits _ Hw) as Hr.
      assert (Hpow : 2 ^ Z.of_nat (length (slice bits (i * BITS_PER_NOTE)
                                      (i * BITS_PER_NOTE + BITS_PER_NOTE)))
                     <= 2 ^ 4).
      { apply Z.pow_le_mono_r; lia. }
      change (2 ^ 4) with 16 in Hpow. lia.
Qed.

Lemma int_from_bits_range_witness :
  exists value,
    int_from_bits_binary64
      (slice [1; 0; 1; 1; 0; 1; 0; 0] (1 * BITS_PER_NOTE)
             (1 * BITS_PER_NOTE + BITS_PER_NOTE))
    = OK value
    /\ value = int_from_bits (slice [1; 0; 1; 1; 0; 1; 0; 0]
                                    (1 * BITS_PER_NOTE)
                                    (1 * BITS_PER_NOTE + BITS_PER_NOTE))
    /\ 0 <= value < 16.
Proof.
  apply (proj2 (int_from_bits_range [1; 0; 1; 1; 0; 1; 0; 0]
                  ltac:(repeat apply Forall_cons; try apply Forall_nil;
                        unfold is_bit; lia))).
  lia.
Defined.

(** X2: two different sequences of the same number of bits, at most 53,
    have different values under the program's [int_from_bits]. *)
Theorem int_from_bits_injective (bits bits' : list Z) :
  Forall is_bit bits -> Forall is_bit bits' ->
  length bits = length bits' -> (length bits <= 53)%nat ->
  bits <> bits' ->
  int_from_bits_binary64 bits <> int_from_bits_binary64 bits'.
Proof.
  intros Hbits Hbits' Hlen H53 Hne E.
  rewrite !int_from_bits_binary64_exact in E by (auto; lia).
  injection E as E. apply Hne.
  apply int_from_bits_same_value; assumption.
Qed.

Lemma int_from_bits_injective_witness :
  int_from_bits_binary64 [1; 0; 1; 0] <> int_from_bits_binary64 [0; 1; 1; 0].
Proof.
  apply (int_from_bits_injective [1; 0; 1; 0] [0; 1; 1; 0]).
  - repeat apply Forall_cons; try apply Forall_nil; unfold is_bit; lia.
  - repeat apply Forall_cons; try apply Forall_nil; unfold is_bit; lia.
  - reflexivity.
  - cbn. lia.
  - discriminate.
Defined.

(** With 54 bits the rounding of the float sum merges values: [2^53 + 1]
    is returned as [2^53]. *)
Lemma int_from_bits_binary64_merges_values :
  int_from_bits_binary64 (1 :: repeat 0 52 ++ [1]) = OK (2 ^ 53)
  /\ int_from_bits_binary64 (0 :: repeat 0 52 ++ [1]) = OK (2 ^ 53).
Proof. split; vm_compute; reflexivity. Qed.

(** X3: for bits, the program's value of a concatenation of at most 53
    bits is the value of the first part plus the value of the second
    shifted by the length of the first; zeros appended to a sequence of at
    most 53 bits do not change the value as long as the sequence keeps at
    most 1024 elements. *)
Theorem int_from_bits_concatenation (bits bits' : list Z) (k : nat) :
  Forall is_bit bits ->
  (Forall is_bit bits' -> (length bits + length bits' <= 53)%nat ->
   exists value value',
     int_from_bits_binary64 bits = OK value
     /\ int_from_bits_binary64 bits' = OK value'
     /\ int_from_bits_binary64 (bits ++ bits')
        = OK (value + 2 ^ Z.of_nat (length bits) * value'))
  /\ ((length bits <= 53)%nat -> (length bits + k <= 1024)%nat ->
      int_from_bits_binary64 (bits ++ repeat 0 k)
      = int_from_bits_binary64 bits).
Proof.
  intros Hbits. split.
  - intros Hbits' Hlen.
    exists (int_from_bits bits), (int_from_bits bits').
    split; [apply int_from_bits_binary64_exact; [assumption | lia]|].
    split; [apply int_from_bits_binary64_exact; [assumption | lia]|].
    rewrite int_from_bits_binary64_exact.
    + rewrite int_from_bits_app. reflexivity.
    + apply Forall_app. auto.
    + rewrite length_app. lia.
  - intros H53 Hlen.
    assert (Hv : int_from_bits (bits ++ repeat 0 k) = int_from_bits bits).
    { rewrite int_from_bits_app, int_from_bits_zeros. lia. }
    rewrite (int_from_bits_binary64_exact bits) by assumption.
    rewrite int_from_bits_binary64_exact_value.
    + rewrite Hv. reflexivity.
    + apply Forall_app. split; [assumption | apply Forall_is_bit_zeros].
    + rewrite length_app, repeat_length. lia.
    + rewrite Hv. pose proof (int_from_bits_of_bits bits Hbits) as Hr.
      assert (2 ^ Z.of_nat (length bits) <= 2 ^ 53)
        by (apply Z.pow_le_mono_r; lia).
      lia.
Qed.

Lemma int_from_bits_concatenation_witness :
  int_from_bits_binary64 ([1; 1; 0; 1] ++ repeat 0 1000)
  = int_from_bits_binary64 [1; 1; 0; 1].
Proof.
  apply (proj2 (int_from_bits_concatenation [1; 1; 0; 1] [] 1000
                  ltac:(repeat apply Forall_cons; try apply Forall_nil;
                        unfold is_bit; lia))).
  - cbn. lia.
  - cbn. lia.
Defined.

Section FloatWindows.
Context {Pitch B : Type} `{BeatArith B}.
Variable EventScale : string -> string -> Z -> list Pitch.

(** X23: on a genome of bits the floats of [int_from_bits] change nothing
    in the decoder: every note window gets the exact value of its bits, and
    [genome_to_melody] with the program's [int_from_bits] returns, or
    raises, exactly as it does with the exact values. *)
Theorem float_window_values_are_exact (genome : Genome)
  (num_bars num_notes num_steps : Z) (pauses : bool) (key scale : string)
  (root : Z) :
  Forall is_bit genome ->
  Forall (fun note => decoded_value_binary64 pauses note
                      = OK (decoded_value pauses note))
         (note_windows genome num_bars num_notes)
  /\ genome_to_melody_binary64 EventScale genome num_bars num_notes num_steps
                               pauses key scale root
     = genome_to_melody EventScale genome num_bars num_notes num_steps pauses
                        key scale root.
Proof.
  intros Hbits. split.
  - apply Forall_forall. intros note Hin.
    destruct (note_windows_of_bits genome num_bars num_notes Hbits note Hin)
      as [Hnote Hlen].
    unfold decoded_value_binary64, decoded_value.
    rewrite int_from_bits_binary64_exact by (auto; lia). reflexivity.
  - apply genome_to_melody_binary64_exact. exact Hbits.
Qed.

End FloatWindows.

Lemma float_window_values_are_exact_witness :
  genome_to_melody_binary64 (B := float) sample_scale sample_genome 1 3 2
                            true "C" "major" 4
  = genome_to_melody (B := float) sample_scale sample_genome 1 3 2 true
                     "C" "major" 4.
Proof.
  apply (proj2 (float_window_values_are_exact (H := float_beats)
                  sample_scale sample_genome 1 3 2 true "C" "major" 4
                  ltac:(unfold sample_genome;
                        repeat apply Forall_cons; try apply Forall_nil;
                        unfold is_bit; lia))).
Defined.

(** ** More on the decoding loop *)

Lemma runs_cons (v : Z) (t : list Z) : runs (v :: t) = push_run v (runs t).
Proof. reflexivity. Qed.

Lemma push_extend (v x : Z) (rs : list (Z * nat)) :
  push_run v (extend_runs rs x) = extend_runs (push_run v rs) x.
Proof.
  destruct rs as [|[w k] [|r2 rest]]; cbn [extend_runs push_run].
  - destruct (v =? x) eqn:E; [|reflexivity].
    apply Z.eqb_eq in E. subst. reflexivity.
  - destruct (w =? x) eqn:Ex, (v =? w) eqn:Ev; cbn [extend_runs push_run];
      rewrite ?Ex, ?Ev; reflexivity.
  - destruct (v =? w) eqn:Ev; cbn [extend_runs push_run]; rewrite ?Ev;
      reflexivity.
Qed.

Lemma runs_snoc (l : list Z) (x : Z) :
  runs (l ++ [x]) = extend_runs (runs l) x.
Proof.
  induction l as [|v t IH]; [reflexivity|].
  cbn [app]. rewrite !runs_cons, IH. apply push_extend.
Qed.

Lemma extend_runs_last (r : list (Z * nat)) (w : Z) (k : nat) (x : Z) :
  extend_runs (r ++ [(w, k)]) x
  = if w =? x then r ++ [(w, S k)] else r ++ [(w, k); (x, O)].
Proof.
  induction r as [|[h kh] r IH]; [reflexivity|].
  cbn [app extend_runs].
  destruct (r ++ [(w, k)]) as [|p q] eqn:E; [destruct r; discriminate|].
  rewrite IH. destruct (w =? x); reflexivity.
Qed.

Lemma for_each_prefix_invariant {S A : Type} (body : S -> A -> result S)
  (P : list A -> S -> Prop) :
  (forall done s x, P done s ->
     exists s', body s x = OK s' /\ P (done ++ [x]) s') ->
  forall l done s, P done s ->
    exists s', for_each body l s = OK s' /\ P (done ++ l) s'.
Proof.
  intros Hbody l; induction l as [|x l IH]; intros done s Hs.
  - exists s. rewrite app_nil_r. split; [reflexivity | assumption].
  - destruct (Hbody done s x Hs) as [s1 [E1 P1]].
    destruct (IH (done ++ [x]) s1 P1) as [s2 [E2 P2]].
    exists s2. cbn [for_each]. rewrite E1. cbn [bind]. split; [exact E2|].
    rewrite <- app_assoc in P2. exact P2.
Qed.

Lemma nth_error_snoc {A : Type} (l : list A) (x y : A) (j : nat) :
  nth_error (l ++ [x]) j = Some y ->
  (j < length l)%nat /\ nth_error l j = Some y \/ j = length l /\ y = x.
Proof.
  intros E. destruct (Nat.lt_ge_cases j (length l)) as [Hlt|Hge].
  - left. rewrite nth_error_app1 in E by exact Hlt. auto.
  - right. rewrite nth_error_app2 in E by exact Hge.
    destruct (j - length l)%nat as [|d] eqn:Ed.
    + cbn in E. injection E as <-. split; [lia | reflexivity].
    + cbn in E. destruct d; discriminate.
Qed.

Lemma nth_error_last {A : Type} (l : list A) (a d : A) (i : nat) :
  nth_error l i = Some a -> S i = length l -> last l d = a.
Proof.
  intros E Hi. destruct (@exists_last _ l) as [l' [z ->]].
  - intros ->. discriminate.
  - rewrite last_last. rewrite length_app in Hi. cbn [length] in Hi.
    rewrite nth_error_app2 in E by lia.
    replace (i - length l')%nat with 0%nat in E by lia.
    cbn in E. injection E as <-. reflexivity.
Qed.

Section StoredMelody.
Context {Pitch B : Type} `{BeatArithLaws B}.
Variable EventScale : string -> string -> Z -> list Pitch.

Lemma decode_note_cases (pauses : bool) (note_length : B)
  (melody melody' : Melody Z B) (note : list Z) :
  decode_note pauses note_length melody note = OK melody' ->
  let v := decoded_value pauses note in
  (rest_window pauses note = true
   /\ melody' = mkMelody (notes melody ++ [0]) (velocity melody ++ [0])
                         (beat melody ++ [note_length]))
  \/ (rest_window pauses note = false /\ v < 8
      /\ notes melody <> [] /\ last (notes melody) 0 = v
      /\ notes melody' = notes melody /\ velocity melody' = velocity melody
      /\ add_to_last beat_add (beat melody) note_length = OK (beat melody'))
  \/ (rest_window pauses note = false /\ v < 8
      /\ (notes melody = [] \/ last (notes melody) 0 <> v)
      /\ melody' = mkMelody (notes melody ++ [v]) (velocity melody ++ [127])
                            (beat melody ++ [note_length])).
Proof.
  unfold decode_note, rest_window. cbv zeta.
  destruct (decoded_value pauses note >=? 2 ^ (BITS_PER_NOTE - 1)) eqn:Er.
  - intros E. injection E as <-. left. auto.
  - assert (Hv : decoded_value pauses note < 8).
    { destruct (Z.geb_spec (decoded_value pauses note)
                           (2 ^ (BITS_PER_NOTE - 1))) as [|Hlt];
        [discriminate|]. exact Hlt. }
    destruct (Z.of_nat (length (notes melody)) >? 0) eqn:El; cbn [andb].
    + destruct (last (notes melody) 0 =? decoded_value pauses note) eqn:Ee.
      * destruct (add_to_last beat_add (beat melody) note_length)
          as [beat'|e] eqn:Ea; cbn [bind]; [|discriminate].
        intros E. injection E as <-. right. left.
        apply Z.eqb_eq in Ee. cbn [notes velocity beat].
        repeat split; auto.
        intros En. rewrite En in El. discriminate.
      * intros E. injection E as <-. right. right.
        apply Z.eqb_neq in Ee. auto.
    + intros E. injection E as <-. right. right.
      repeat split; auto. left.
      destruct (notes melody); [reflexivity | discriminate].
Qed.

Lemma decoded_value_nonneg (pauses : bool) (note : list Z) :
  pauses = false \/ 0 <= int_from_bits note ->
  0 <= decoded_value pauses note.
Proof.
  intros Hp. unfold decoded_value.
  destruct pauses; cbn [negb].
  - destruct Hp as [Hp|Hp]; [discriminate | exact Hp].
  - apply Z.mod_pos_bound. reflexivity.
Qed.

Lemma melody_eta (m : Melody Z B) :
  m = mkMelody (notes m) (velocity m) (beat m).
Proof. destruct m; reflexivity. Qed.

Lemma stored_invariant_step (pauses : bool) (note_length : B)
  (done : list (list Z)) (melody : Melody Z B) (note : list Z) :
  stored_invariant pauses note_length done melody ->
  exists melody',
    decode_note pauses note_length melody note = OK melody'
    /\ stored_invariant pauses note_length (done ++ [note]) melody'.
Proof.
  intros [Hst [Hok [Hcount [Hnn [Hadj Hruns]]]]].
  destruct (decode_note_preserves pauses note_length _ melody note Hst)
    as [melody' [E Hst']].
  exists melody'. split; [exact E|].
  pose proof (decode_note_cases _ _ _ _ _ E) as Hcases. cbv zeta in Hcases.
  unfold stored_invariant.
  rewrite length_app, Nat.add_1_r. split; [exact Hst'|].
  rewrite filter_app, length_app. cbn [filter].
  pose proof (Forall2_length Hok) as Hlen.
  destruct Hcases as [[Er ->] | [[Er [Hv [Hne [Hlast [En [Ev Ea]]]]]]
                               | [Er [Hv [Hnew ->]]]]];
    cbn [notes velocity beat]; rewrite Er; cbn [length].
  - split; [apply Forall2_app; [exact Hok|];
            apply Forall2_cons; [left; auto | apply Forall2_nil]|].
    split; [rewrite count_occ_app, Hcount; reflexivity|].
    split.
    { intros Hp. apply Forall_app. split; [|repeat constructor; lia].
      apply Hnn. destruct Hp as [Hp|Hp]; [left; exact Hp|].
      right. apply Forall_app in Hp. tauto. }
    split.
    { intros i a b Ha Hb Hvel.
      apply nth_error_snoc in Hb. apply nth_error_snoc in Hvel.
      destruct Hvel as [[Hi Hvel] | [_ Hvel]]; [|discriminate].
      destruct Hb as [[_ Hb] | [Hi' _]]; [|lia].
      rewrite nth_error_app1 in Ha by lia.
      exact (Hadj i a b Ha Hb Hvel). }
    intros ->. unfold rest_window in Er.
    pose proof (decoded_value_masked note). apply Z.geb_le in Er.
    change (2 ^ (BITS_PER_NOTE - 1)) with 8 in *. lia.
  - rewrite En, Ev.
    split; [exact Hok|].
    split; [rewrite Hcount; lia|].
    split.
    { intros Hp. apply Hnn. destruct Hp as [Hp|Hp]; [left; exact Hp|].
      right. apply Forall_app in Hp. tauto. }
    split; [exact Hadj|].
    intros Hp. specialize (Hruns Hp). cbv zeta in Hruns. subst pauses.
    rewrite map_app. cbn [map]. rewrite runs_snoc.
    set (rs := runs (map (decoded_value false) done)) in *.
    assert (Hrs : rs <> []).
    { intros Ers. rewrite Ers in Hruns. rewrite Hruns in Hne.
      cbn in Hne. contradiction. }
    destruct (exists_last Hrs) as [r [[w k] Er']].
    rewrite Er' in *. rewrite extend_runs_last.
    rewrite Hruns in Hlast. cbn [notes] in Hlast.
    rewrite map_app in Hlast. cbn [map fst] in Hlast.
    rewrite last_last in Hlast. rewrite Hlast, Z.eqb_refl.
    rewrite (melody_eta melody'), En, Ev.
    rewrite Hruns in Ea. cbn [beat] in Ea.
    rewrite map_app in Ea. cbn [map snd] in Ea.
    rewrite add_to_last_snoc in Ea. injection Ea as <-.
    rewrite Hruns. cbn [notes velocity].
    rewrite !map_app, !length_app. cbn [map fst snd length tied].
    rewrite Hlast. reflexivity.
  - split; [apply Forall2_app; [exact Hok|];
            apply Forall2_cons; [right; auto | apply Forall2_nil]|].
    split; [rewrite count_occ_app, Hcount; cbn; lia|].
    split.
    { intros Hp. apply Forall_app. split.
      - apply Hnn. destruct Hp as [Hp|Hp]; [left; exact Hp|].
        right. apply Forall_app in Hp. tauto.
      - repeat constructor. apply decoded_value_nonneg.
        destruct Hp as [Hp|Hp]; [left; exact Hp|].
        right. apply Forall_app in Hp. destruct Hp as [_ Hp].
        inversion Hp; assumption. }
    split.
    { intros i a b Ha Hb Hvel.
      apply nth_error_snoc in Hb.
      destruct Hb as [[Hi Hb] | [Hi ->]].
      - rewrite nth_error_app1 in Ha by lia.
        rewrite nth_error_app1 in Hvel by lia.
        exact (Hadj i a b Ha Hb Hvel).
      - rewrite nth_error_app1 in Ha by lia.
        destruct Hnew as [Hnil | Hlast].
        + rewrite Hnil in Hi. discriminate.
        + rewrite (nth_error_last _ a 0 i Ha Hi) in Hlast. exact Hlast. }
    intros Hp. specialize (Hruns Hp). cbv zeta in Hruns. subst pauses.
    rewrite map_app. cbn [map]. rewrite runs_snoc.
    set (rs := runs (map (decoded_value false) done)) in *.
    rewrite Hruns in *. cbn [notes velocity beat] in *.
    destruct rs as [|p rs'] eqn:Ers.
    + reflexivity.
    + assert (Hrs : p :: rs' <> []) by discriminate.
      destruct (exists_last Hrs) as [r [[w k] Er']].
      rewrite Er' in *. rewrite extend_runs_last.
      destruct Hnew as [Hnil | Hlast];
        [destruct r; discriminate|].
      rewrite map_app in Hlast. cbn [map fst] in Hlast.
      rewrite last_last in Hlast.
      destruct (w =? decoded_value false note) eqn:Ew;
        [apply Z.eqb_eq in Ew; exfalso; exact (Hlast Ew)|].
      rewrite !map_app, !length_app. cbn [length]. rewrite !repeat_app.
      cbn [map fst snd tied repeat].
      rewrite <- !app_assoc. reflexivity.
Qed.

Lemma stored_invariant_init (pauses : bool) (note_length : B) :
  stored_invariant pauses note_length [] (mkMelody [] [] []).
Proof.
  unfold stored_invariant. cbn [notes velocity beat length filter map runs].
  split; [apply decoded_state_init|].
  split; [constructor|]. split; [reflexivity|].
  split; [intros _; constructor|].
  split; [intros i a b Ha; destruct i; discriminate|].
  intros _. reflexivity.
Qed.

Lemma decode_notes_invariant (genome : Genome) (num_bars num_notes : Z)
  (pauses : bool) (note_length : B) :
  exists stored,
    decode_notes genome num_bars num_notes pauses note_length = OK stored
    /\ stored_invariant pauses note_length
                        (note_windows genome num_bars num_notes) stored.
Proof.
  unfold decode_notes.
  exact (for_each_prefix_invariant (decode_note pauses note_length)
           (stored_invariant pauses note_length)
           (fun done s x => stored_invariant_step pauses note_length done s x)
           (note_windows genome num_bars num_notes) []
           (mkMelody [] [] []) (stored_invariant_init pauses note_length)).
Qed.

(** The stored melody behind a returned melody, with its invariant. *)
Lemma genome_to_melody_invariant (genome : Genome)
  (num_bars num_notes num_steps : Z) (pauses : bool) (key scale : string)
  (root : Z) (melody : Melody (list Pitch) B) :
  genome_to_melody EventScale genome num_bars num_notes num_steps pauses
                   key scale root = OK melody ->
  exists note_length stored,
    decode_notes genome num_bars num_notes pauses note_length = OK stored
    /\ stored_invariant pauses note_length
                        (note_windows genome num_bars num_notes) stored
    /\ velocity melody = velocity stored
    /\ beat melody = beat stored.
Proof.
  intros E.
  destruct (genome_to_melody_OK EventScale _ _ _ _ _ _ _ _ _ E)
    as [nl [stored [_ [Ed [_ [Ev Eb]]]]]].
  destruct (decode_notes_invariant genome num_bars num_notes pauses nl)
    as [stored' [Ed' Hinv]].
  rewrite Ed in Ed'. injection Ed' as <-.
  exists nl, stored. auto.
Qed.

Lemma entry_ok_velocity (stored velocities : list Z) :
  Forall2 entry_ok stored velocities ->
  Forall (fun v => v = 0 \/ v = 127) velocities.
Proof.
  induction 1 as [|note v ns vs Hok _ IH]; constructor; [|exact IH].
  destruct Hok as [[-> _] | [-> _]]; auto.
Qed.


(** X4: every velocity of a returned melody is 0 or 127, and the entries
    of velocity 0 are as many as the note windows that decode to a rest:
    rests are never merged. *)
Theorem velocities_are_rest_or_full (genome : Genome)
  (num_bars num_notes num_steps : Z) (pauses : bool) (key scale : string)
  (root : Z) (melody : Melody (list Pitch) B) :
  genome_to_melody EventScale genome num_bars num_notes num_steps pauses
                   key scale root = OK melody ->
  Forall (fun v => v = 0 \/ v = 127) (velocity melody)
  /\ count_occ Z.eq_dec (velocity melody) 0
     = length (filter (rest_window pauses)
                      (note_windows genome num_bars num_notes)).
Proof.
  intros E.
  destruct (genome_to_melody_invariant _ _ _ _ _ _ _ _ _ E)
    as [nl [stored [_ [[_ [Hok [Hcount _]]] [Ev _]]]]].
  rewrite Ev. split; [exact (entry_ok_velocity _ _ Hok) | exact Hcount].
Qed.

(** X5: a returned melody has at most [num_bars * num_notes] entries, and
    at least one when there is a note window to decode. *)
Theorem melody_entry_count (genome : Genome)
  (num_bars num_notes num_steps : Z) (pauses : bool) (key scale : string)
  (root : Z) (melody : Melody (list Pitch) B) :
  genome_to_melody EventScale genome num_bars num_notes num_steps pauses
                   key scale root = OK melody ->
  (length (velocity melody) <= Z.to_nat (num_bars * num_notes))%nat
  /\ (1 <= num_bars * num_notes -> velocity melody <> []).
Proof.
  intros E.
  destruct (genome_to_melody_invariant _ _ _ _ _ _ _ _ _ E)
    as [nl [stored [_ [[[Hv Hb _ [ks [Hks Hsum]]] _] [Ev _]]]]].
  rewrite note_windows_length in Hsum.
  assert (Hlen : length (velocity stored) = length ks).
  { rewrite Hv, <- Hb, Hks, length_map. reflexivity. }
  assert (Hle : (length ks <= list_sum (map S ks))%nat).
  { clear. induction ks as [|k ks IH]; simpl; lia. }
  rewrite Ev. split; [lia|].
  intros Hpos Hnil. rewrite Hnil in Hlen. cbn [length] in Hlen.
  destruct ks; [|discriminate]. cbn in Hsum. lia.
Qed.

(** X6: in the stored melody an entry of velocity 127 never has the pitch
    index of the entry before it: equal adjacent pitch indices only occur
    where the second entry is a rest. *)
Theorem sounding_entry_changes_pitch_index (genome : Genome)
  (num_bars num_notes : Z) (pauses : bool) (note_length : B) :
  exists stored,
    decode_notes genome num_bars num_notes pauses note_length = OK stored
    /\ forall i a b,
         nth_error (notes stored) i = Some a ->
         nth_error (notes stored) (S i) = Some b ->
         nth_error (velocity stored) (S i) = Some 127 ->
         a <> b.
Proof.
  destruct (decode_notes_invariant genome num_bars num_notes pauses
                                   note_length)
    as [stored [Ed [_ [_ [_ [_ [Hadj _]]]]]]].
  exists stored. split; [exact Ed | exact Hadj].
Qed.


Lemma melody_pitch_in_scale (genome : Genome)
  (num_bars num_notes num_steps : Z) (pauses : bool) (key scale : string)
  (root : Z) (melody : Melody (list Pitch) B) :
  genome_to_melody EventScale genome num_bars num_notes num_steps pauses
                   key scale root = OK melody ->
  forall layer p,
    In layer (notes melody) -> In p layer ->
    In p (EventScale key scale root).
Proof.
  intros E layer p Hlayer Hp.
  destruct (genome_to_melody_OK EventScale _ _ _ _ _ _ _ _ _ E)
    as [nl [stored [_ [_ [El _]]]]].
  apply comprehension_Forall2 in El.
  assert (Hin : forall (l : list Z) (l' : list (list Pitch)),
             Forall2 (fun step layer' =>
                        comprehension
                          (fun note => scale_at (EventScale key scale root)
                                                (note + step * 2))
                          (notes stored) = OK layer') l l' ->
             In layer l' ->
             exists step,
               comprehension
                 (fun note => scale_at (EventScale key scale root)
                                       (note + step * 2))
                 (notes stored) = OK layer).
  { induction 1 as [|step layer' l l' Hl _ IH]; intros Hi;
      [contradiction|].
    destruct Hi as [<- | Hi]; [exists step; exact Hl | exact (IH Hi)]. }
  destruct (Hin _ _ El Hlayer) as [step Es].
  apply comprehension_Forall2 in Es.
  clear -Es Hp. induction Es as [|note q l l' Hq _ IH]; [contradiction|].
  destruct Hp as [<- | Hp]; [|exact (IH Hp)].
  apply scale_at_OK in Hq. eapply nth_error_In. exact Hq.
Qed.

(** X8: every pitch of a returned melody is a pitch of the scale. *)
Theorem melody_pitches_are_in_scale (genome : Genome)
  (num_bars num_notes num_steps : Z) (pauses : bool) (key scale : string)
  (root : Z) (melody : Melody (list Pitch) B) :
  genome_to_melody EventScale genome num_bars num_notes num_steps pauses
                   key scale root = OK melody ->
  Forall (Forall (fun p => In p (EventScale key scale root))) (notes melody).
Proof.
  intros E. apply Forall_forall. intros layer Hlayer.
  apply Forall_forall. intros p Hp.
  exact (melody_pitch_in_scale _ _ _ _ _ _ _ _ _ E layer p Hlayer Hp).
Qed.

Lemma decode_note_value_ext (pauses : bool) (note_length : B)
  (note note' : list Z) :
  decoded_value pauses note = decoded_value pauses note' ->
  forall melody, decode_note pauses note_length melody note
                 = decode_note pauses note_length melody note'.
Proof.
  intros E melody. unfold decode_note. rewrite E. reflexivity.
Qed.

(** X9: without pauses the fourth bit of every note window is ignored:
    two genomes that agree at every position but those of the form
    [4 * i + 3] decode to the same result. *)
Theorem high_bit_is_ignored_without_pauses (genome genome' : Genome)
  (num_bars num_notes num_steps : Z) (key scale : string) (root : Z) :
  (forall k : nat, Z.of_nat k mod 4 <> 3 -> nth k genome 0 = nth k genome' 0) ->
  genome_to_melody EventScale genome num_bars num_notes num_steps false
                   key scale root
  = genome_to_melody EventScale genome' num_bars num_notes num_steps false
                     key scale root.
Proof.
  intros Hagree. unfold genome_to_melody.
  destruct (true_div_4 num_notes) as [nl|e]; cbn [bind]; [|reflexivity].
  assert (Ed : decode_notes genome num_bars num_notes false nl
               = decode_notes genome' num_bars num_notes false nl).
  { unfold decode_notes. apply for_each_ext.
    unfold note_windows. apply Forall2_map_same.
    intros i Hi. apply range_In in Hi.
    apply decode_note_value_ext. unfold decoded_value. cbn [negb].
    rewrite !window_value by lia.
    assert (Hpos : forall j : nat,
               (j < 3)%nat -> Z.of_nat (Z.to_nat (4 * i) + j) mod 4 <> 3).
    { intros j Hj. rewrite Nat2Z.inj_add, Z2Nat.id by lia.
      replace (4 * i + Z.of_nat j) with (Z.of_nat j + i * 4) by lia.
      rewrite Z.mod_add, Z.mod_small by lia. lia. }
    pose proof (Hagree _ (Hpos 0%nat ltac:(lia))) as Hfirst.
    rewrite Nat.add_0_r in Hfirst. rewrite Hfirst.
    rewrite (Hagree _ (Hpos 1%nat ltac:(lia))).
    rewrite (Hagree _ (Hpos 2%nat ltac:(lia))).
    change (2 ^ (BITS_PER_NOTE - 1)) with 8.
    rewrite !(Z.mul_comm 8), !Z.mod_add by lia. reflexivity. }
  rewrite Ed. reflexivity.
Qed.

(** X10: without pauses the stored melody is the run-length encoding of
    the decoded window values: one entry per run of equal adjacent values,
    with the value as pitch index, velocity 127, and the note length
    accumulated once per window of the run. *)
Theorem tied_melody_is_run_length_encoding (genome : Genome)
  (num_bars num_notes : Z) (note_length : B) :
  let rs := runs (map (decoded_value false)
                      (note_windows genome num_bars num_notes)) in
  decode_notes genome num_bars num_notes false note_length
  = OK (mkMelody (map fst rs) (repeat 127 (length rs))
                 (map (fun r => tied note_length (snd r)) rs)).
Proof.
  intros rs.
  destruct (decode_notes_invariant genome num_bars num_notes false
                                   note_length)
    as [stored [Ed [_ [_ [_ [_ [_ Hruns]]]]]]].
  rewrite Ed. f_equal. exact (Hruns eq_refl).
Qed.

End StoredMelody.

(** ** When the decoder and the MIDI-saving path raise *)

Section Raises.
Context {Pitch B : Type} `{BeatArithLaws B}.
Variable EventScale : string -> string -> Z -> list Pitch.

Lemma pitch_layers_empty_scale (stored : list Z) (num_steps : Z) :
  stored <> [] -> 1 <= num_steps ->
  pitch_layers (@nil Pitch) stored num_steps = Error ZeroDivisionError.
Proof.
  intros Hne Hsteps. unfold pitch_layers, range.
  destruct (Z.to_nat num_steps) as [|m] eqn:Em; [lia|].
  destruct stored as [|note rest]; [contradiction|].
  reflexivity.
Qed.

Lemma pitch_layers_no_steps (scl : list Pitch) (stored : list Z)
  (num_steps : Z) :
  num_steps <= 0 -> pitch_layers scl stored num_steps = OK [].
Proof.
  intros Hsteps. unfold pitch_layers, range.
  replace (Z.to_nat num_steps) with 0%nat by lia. reflexivity.
Qed.

Lemma decoded_state_empty (pauses : bool) (note_length : B) (n : nat)
  (melody : Melody Z B) :
  decoded_state pauses note_length n melody ->
  (notes melody = [] <-> n = 0%nat).
Proof.
  intros [_ Hb _ [ks [Hks Hsum]]].
  assert (Hlen : length (notes melody) = length ks).
  { rewrite <- Hb, Hks, length_map. reflexivity. }
  split.
  - intros Hnil. rewrite Hnil in Hlen. destruct ks; [|discriminate].
    cbn in Hsum. lia.
  - intros ->. destruct ks; [|cbn in Hsum; lia].
    destruct (notes melody); [reflexivity | discriminate].
Qed.

(** Past the note length, the decoder raises exactly on an empty scale
    that it has to index. *)
Lemma genome_to_melody_after_note_length (genome : Genome)
  (num_bars num_notes num_steps : Z) (pauses : bool) (key scale : string)
  (root : Z) (note_length : B) :
  true_div_4 num_notes = OK note_length ->
  (EventScale key scale root = [] /\ 1 <= num_bars * num_notes
   /\ 1 <= num_steps
   /\ genome_to_melody EventScale genome num_bars num_notes num_steps pauses
                       key scale root = Error ZeroDivisionError)
  \/ ((EventScale key scale root <> [] \/ num_bars * num_notes <= 0
       \/ num_steps <= 0)
      /\ exists melody,
           genome_to_melody EventScale genome num_bars num_notes num_steps
                            pauses key scale root = OK melody).
Proof.
  intros En. unfold genome_to_melody. rewrite En. cbn [bind].
  destruct (decode_notes_state genome num_bars num_notes pauses note_length)
    as [stored [-> St]]. cbn [bind].
  pose proof (decoded_state_empty _ _ _ _ St) as Hempty.
  destruct (EventScale key scale root) as [|p scl] eqn:Escl.
  - destruct (Z_le_gt_dec num_steps 0) as [Hs|Hs].
    + right. split; [auto|].
      rewrite pitch_layers_no_steps by exact Hs. cbn [bind].
      eexists; reflexivity.
    + destruct (Z_le_gt_dec (num_bars * num_notes) 0) as [Hw|Hw].
      * right. split; [auto|].
        assert (Hnil : notes stored = []) by (apply Hempty; lia).
        rewrite Hnil, pitch_layers_nil. cbn [bind]. eexists; reflexivity.
      * left. repeat split; try lia.
        rewrite pitch_layers_empty_scale; [reflexivity | | lia].
        intros Hnil. apply Hempty in Hnil. lia.
  - right. split; [left; discriminate|].
    destruct (pitch_layers_returns (p :: scl) (notes stored) num_steps)
      as [steps ->]; [discriminate|].
    cbn [bind]. eexists; reflexivity.
Qed.

(** X12: [save_genome_to_midi] raises before it writes anything in three
    cases: when [genome_to_melody] raises, with the same exception; with
    [IndexError] when the melody is returned with no pitch layer, for
    [num_steps <= 0]; and with [ZeroDivisionError] when the melody has a
    layer and the tempo is 0. *)
Theorem save_genome_to_midi_raises_early (filename : string)
  (genome : Genome) (num_bars num_notes num_steps : Z) (pauses : bool)
  (key scale : string) (root bpm : Z) :
  (forall e,
     genome_to_melody EventScale genome num_bars num_notes num_steps pauses
                      key scale root = Error e ->
     save_genome_to_midi EventScale filename genome num_bars num_notes
                         num_steps pauses key scale root bpm = Error e)
  /\ (forall melody,
        genome_to_melody EventScale genome num_bars num_notes num_steps pauses
                         key scale root = OK melody ->
        (num_steps <= 0 ->
         save_genome_to_midi EventScale filename genome num_bars num_notes
                             num_steps pauses key scale root bpm
         = Error IndexError)
        /\ (1 <= num_steps -> bpm = 0 ->
            save_genome_to_midi EventScale filename genome num_bars num_notes
                                num_steps pauses key scale root bpm
            = Error ZeroDivisionError)).
Proof.
  unfold save_genome_to_midi. split.
  - intros e ->. reflexivity.
  - intros melody E. rewrite E. cbn [bind].
    destruct (genome_to_melody_shape EventScale _ _ _ _ _ _ _ _ _ E)
      as [Hvb [Hlen Hlayers]].
    destruct (notes melody) as [|first layers] eqn:En.
    + cbn [length] in Hlen. split; [reflexivity | lia].
    + cbn [length] in Hlen. split; [lia|]. intros _ ->.
      cbn [index nth_error bind].
      assert (Hf : length first = length (beat melody))
        by (inversion Hlayers; assumption).
      rewrite <- Hvb, Hf, Hvb, Nat.eqb_refl. reflexivity.
Qed.

(** X22: on genomes of bits, whether [genome_to_melody] raises, and what,
    does not depend on the genome: it raises on one genome exactly when it
    raises on any other, with the same exception.  The decoder is the one
    with the program's [int_from_bits]. *)
Theorem raising_does_not_depend_on_the_genome (genome genome' : Genome)
  (num_bars num_notes num_steps : Z) (pauses : bool) (key scale : string)
  (root : Z) (e : exn) :
  Forall is_bit genome -> Forall is_bit genome' ->
  (genome_to_melody_binary64 EventScale genome num_bars num_notes num_steps
                             pauses key scale root = Error e
   <-> genome_to_melody_binary64 EventScale genome' num_bars num_notes
                                 num_steps pauses key scale root = Error e).
Proof.
  intros Hbits Hbits'.
  rewrite !genome_to_melody_binary64_exact by assumption.
  destruct (true_div_4 num_notes) as [nl|e1] eqn:En.
  - destruct (genome_to_melody_after_note_length genome num_bars num_notes
                num_steps pauses key scale root nl En)
      as [[Hscl [Hw [Hs ->]]] | [Hcond [melody ->]]];
      destruct (genome_to_melody_after_note_length genome' num_bars
                  num_notes num_steps pauses key scale root nl En)
      as [[Hscl' [Hw' [Hs' ->]]] | [Hcond' [melody' ->]]].
    + tauto.
    + destruct Hcond' as [Hc | [Hc | Hc]]; [contradiction | lia | lia].
    + destruct Hcond as [Hc | [Hc | Hc]]; [contradiction | lia | lia].
    + split; discriminate.
  - unfold genome_to_melody. rewrite En. cbn [bind]. tauto.
Qed.

End Raises.

Section FloatRaises.
Context {Pitch : Type}.
Variable EventScale : string -> string -> Z -> list Pitch.


End FloatRaises.


Lemma save_genome_to_midi_raises_early_witness :
  save_genome_to_midi (B := float) sample_scale "0/0/C-major-0-0.mid"
                      [1; 0; 0; 0] 1 1 1 false "C" "major" 4 0
  = Error ZeroDivisionError.
Proof.
  apply (proj2 (proj2 (save_genome_to_midi_raises_early (H := float_beats)
                         sample_scale "0/0/C-major-0-0.mid" [1; 0; 0; 0]
                         1 1 1 false "C" "major" 4 0)
                  (mkMelody [[50]] [127] [4%float])
                  ltac:(vm_compute; reflexivity))).
  - lia.
  - reflexivity.
Defined.

Lemma raising_does_not_depend_on_the_genome_witness :
  genome_to_melody_binary64 (B := float) (fun _ _ _ => @nil Z) [1; 0; 0; 0]
                            1 1 1 false "C" "major" 4
  = Error ZeroDivisionError
  <-> genome_to_melody_binary64 (B := float) (fun _ _ _ => @nil Z)
                                [0; 1; 1; 0] 1 1 1 false "C" "major" 4
      = Error ZeroDivisionError.
Proof.
  apply (raising_does_not_depend_on_the_genome (B := float)
           (fun _ _ _ => @nil Z) [1; 0; 0; 0] [0; 1; 1; 0] 1 1 1 false
           "C" "major" 4 ZeroDivisionError).
  - repeat apply Forall_cons; try apply Forall_nil; unfold is_bit; lia.
  - repeat apply Forall_cons; try apply Forall_nil; unfold is_bit; lia.
Defined.

(** ** What the MIDI-saving path writes *)

Lemma skipn_nth_error {A : Type} (l : list A) (i : nat) (x : A) :
  nth_error l i = Some x -> skipn i l = x :: skipn (S i) l.
Proof.
  revert l; induction i as [|i IH]; intros l E; destruct l as [|y l];
    try discriminate.
  - cbn in E. injection E as <-. reflexivity.
  - cbn [nth_error] in E. cbn [skipn]. rewrite (IH l E). reflexivity.
Qed.

Lemma index_OK {A : Type} (l : list A) (i : nat) (x : A) :
  index l i = OK x -> nth_error l i = Some x.
Proof.
  unfold index. destruct (nth_error l i); [|discriminate].
  intros E. injection E as <-. reflexivity.
Qed.

Lemma comprehension_length {A C : Type} (f : A -> result C) (l : list A)
  (ys : list C) :
  comprehension f l = OK ys -> length ys = length l.
Proof.
  intros E. apply comprehension_Forall2 in E.
  symmetry. exact (Forall2_length E).
Qed.

Lemma positive_velocities (velocities : list Z) :
  Forall (fun v => v = 0 \/ v = 127) velocities ->
  length (filter (fun v => v >? 0) velocities)
  = count_occ Z.eq_dec velocities 127.
Proof.
  induction 1 as [|v l Hv _ IH]; [reflexivity|].
  cbn [filter count_occ].
  destruct Hv as [-> | ->]; cbn; rewrite IH; reflexivity.
Qed.

Section WrittenNotes.
Context {Pitch B : Type} `{BeatArithLaws B}.
Variable EventScale : string -> string -> Z -> list Pitch.

Lemma write_notes_written_for (melody : Melody (list Pitch) B) :
  forall velocities i time written,
    write_notes melody i velocities time = OK written ->
    Forall (written_for melody i velocities time) written
    /\ length written
       = (length (notes melody)
          * length (filter (fun v => v >? 0) velocities))%nat.
Proof.
  induction velocities as [|vel rest IH]; intros i time written E.
  - cbn in E. injection E as <-. split; [constructor | cbn; lia].
  - cbn [write_notes] in E.
    destruct (if vel >? 0 then add_notes melody i time vel else OK [])
      as [added|e] eqn:Ea; cbn [bind] in E; [|discriminate].
    destruct (index (beat melody) i) as [d|e] eqn:Ei; cbn [bind] in E;
      [|discriminate].
    destruct (write_notes melody (S i) rest (beat_add time d))
      as [later|e] eqn:El; cbn [bind] in E; [|discriminate].
    injection E as <-.
    destruct (IH _ _ _ El) as [Hlater Hcount].
    apply index_OK in Ei.
    assert (Hskip := skipn_nth_error _ _ _ Ei).
    split.
    + apply Forall_app. split.
      * destruct (vel >? 0) eqn:Ev;
          [|injection Ea as <-; constructor].
        unfold add_notes in Ea. apply comprehension_Forall2 in Ea.
        assert (Hall : forall layers notes',
                   Forall2 (fun step y =>
                              (pitch <- index step i ;;
                               duration <- index (beat melody) i ;;
                               OK (mkNote 0 0 pitch time duration vel))
                              = OK y) layers notes' ->
                   (forall layer, In layer layers -> In layer (notes melody)) ->
                   Forall (written_for melody i (vel :: rest) time) notes').
        { induction 1 as [|step y layers notes' Hy _ IHl]; intros Hsub;
            constructor.
          - destruct (index step i) as [p|] eqn:Ep; cbn [bind] in Hy;
              [|discriminate].
            destruct (index (beat melody) i) as [d'|] eqn:Ed;
              cbn [bind] in Hy; [|discriminate].
            injection Hy as <-. apply index_OK in Ep, Ed.
            unfold written_for. cbn [track channel volume pitch duration].
            split; [reflexivity|]. split; [reflexivity|].
            split; [apply Z.gtb_lt in Ev; lia|].
            exists i, step. rewrite Nat.sub_diag.
            cbn [nth_error firstn fold_left].
            repeat split; auto. apply Hsub. left. reflexivity.
          - apply IHl. intros layer Hl. apply Hsub. right. exact Hl. }
        apply (Hall _ _ Ea). auto.
      * eapply Forall_impl; [|exact Hlater].
        intros note [Ht [Hc [Hv [j [layer [Hj [Hvel [Hl [Hp [Hd Htime]]]]]]]]]].
        unfold written_for. repeat split; try assumption.
        exists j, layer.
        replace (j - i)%nat with (S (j - S i)) by lia.
        rewrite Hskip. cbn [nth_error firstn fold_left].
        repeat split; try assumption. lia.
    + rewrite length_app, Hcount. cbn [filter].
      destruct (vel >? 0) eqn:Ev.
      * unfold add_notes in Ea. apply comprehension_length in Ea.
        rewrite Ea. cbn [length]. lia.
      * injection Ea as <-. cbn [length]. lia.
Qed.

(** What [save_genome_to_midi] returned, read against the melody. *)
Lemma save_genome_to_midi_OK (filename : string) (genome : Genome)
  (num_bars num_notes num_steps : Z) (pauses : bool) (key scale : string)
  (root bpm : Z) (written : list (MidiNote Pitch B)) :
  save_genome_to_midi EventScale filename genome num_bars num_notes
                      num_steps pauses key scale root bpm = OK written ->
  exists melody,
    genome_to_melody EventScale genome num_bars num_notes num_steps pauses
                     key scale root = OK melody
    /\ write_notes melody 0 (velocity melody) beat_zero = OK written.
Proof.
  unfold save_genome_to_midi.
  destruct (genome_to_melody EventScale genome num_bars num_notes num_steps
                             pauses key scale root) as [melody|e];
    cbn [bind]; [|discriminate].
  destruct (index (notes melody) 0) as [first|e]; cbn [bind];
    [|discriminate].
  destruct (negb (length first =? length (beat melody))%nat
            || negb (length first =? length (velocity melody))%nat);
    [discriminate|].
  destruct (addTempo bpm); cbn [bind]; [|discriminate].
  intros E. exists melody. split; [reflexivity | exact E].
Qed.

(** X13: the notes that [save_genome_to_midi] writes are all on track 0 and
    channel 0 with volume 127 and a pitch of the scale, and their number
    is the number of steps times the number of entries of velocity 127:
    rests write nothing. *)
Theorem written_notes_are_the_sounding_entries (filename : string)
  (genome : Genome) (num_bars num_notes num_steps : Z) (pauses : bool)
  (key scale : string) (root bpm : Z) (written : list (MidiNote Pitch B)) :
  save_genome_to_midi EventScale filename genome num_bars num_notes
                      num_steps pauses key scale root bpm = OK written ->
  exists melody,
    genome_to_melody EventScale genome num_bars num_notes num_steps pauses
                     key scale root = OK melody
    /\ Forall (fun note => track note = 0 /\ channel note = 0
                           /\ volume note = 127
                           /\ In (pitch note) (EventScale key scale root))
              written
    /\ length written
       = (Z.to_nat num_steps
          * count_occ Z.eq_dec (velocity melody) 127%Z)%nat.
Proof.
  intros E.
  destruct (save_genome_to_midi_OK _ _ _ _ _ _ _ _ _ _ _ E)
    as [melody [Em Ew]].
  exists melody. split; [exact Em|].
  destruct (write_notes_written_for melody _ _ _ _ Ew) as [Hall Hcount].
  destruct (genome_to_melody_invariant EventScale _ _ _ _ _ _ _ _ _ Em)
    as [nl [stored [_ [[_ [Hok _]] [Ev _]]]]].
  pose proof (entry_ok_velocity _ _ Hok) as Hvel. rewrite <- Ev in Hvel.
  destruct (genome_to_melody_shape EventScale _ _ _ _ _ _ _ _ _ Em)
    as [_ [Hlen _]].
  split.
  - eapply Forall_impl; [|exact Hall].
    intros note [Ht [Hc [Hv [j [layer [_ [Hj [Hl [Hp _]]]]]]]]].
    split; [exact Ht|]. split; [exact Hc|]. split.
    + apply nth_error_In in Hj. rewrite Forall_forall in Hvel.
      destruct (Hvel _ Hj) as [H0' | H127]; [lia | exact H127].
    + apply (melody_pitch_in_scale EventScale _ _ _ _ _ _ _ _ _ Em layer).
      * exact Hl.
      * eapply nth_error_In. exact Hp.
  - rewrite Hcount, Hlen, (positive_velocities _ Hvel). reflexivity.
Qed.

(** X14: every note written belongs to an entry [j] of velocity 127: it
    has the pitch of one layer at [j], lasts the duration of the entry,
    and starts at the sum, from [0.0] and left to right, of the durations
    of the entries before [j]. *)
Theorem written_notes_follow_the_beat (filename : string)
  (genome : Genome) (num_bars num_notes num_steps : Z) (pauses : bool)
  (key scale : string) (root bpm : Z) (written : list (MidiNote Pitch B)) :
  save_genome_to_midi EventScale filename genome num_bars num_notes
                      num_steps pauses key scale root bpm = OK written ->
  exists melody,
    genome_to_melody EventScale genome num_bars num_notes num_steps pauses
                     key scale root = OK melody
    /\ Forall (fun note =>
                 exists j layer,
                   nth_error (velocity melody) j = Some 127
                   /\ In layer (notes melody)
                   /\ nth_error layer j = Some (pitch note)
                   /\ nth_error (beat melody) j = Some (duration note)
                   /\ time note = beat_sum (firstn j (beat melody)))
              written.
Proof.
  intros E.
  destruct (save_genome_to_midi_OK _ _ _ _ _ _ _ _ _ _ _ E)
    as [melody [Em Ew]].
  exists melody. split; [exact Em|].
  destruct (write_notes_written_for melody _ _ _ _ Ew) as [Hall _].
  destruct (genome_to_melody_invariant EventScale _ _ _ _ _ _ _ _ _ Em)
    as [nl [stored [_ [[_ [Hok _]] [Ev _]]]]].
  pose proof (entry_ok_velocity _ _ Hok) as Hvel. rewrite <- Ev in Hvel.
  eapply Forall_impl; [|exact Hall].
  intros note [_ [_ [Hv [j [layer [_ [Hj [Hl [Hp [Hd Htime]]]]]]]]]].
  rewrite Nat.sub_0_r in Hj, Htime. cbn [skipn] in Htime.
  exists j, layer. repeat split; try assumption.
  pose proof (nth_error_In _ _ Hj) as Hin. rewrite Forall_forall in Hvel.
  destruct (Hvel _ Hin) as [H0' | H127]; [lia|].
  rewrite <- H127. exact Hj.
Qed.

End WrittenNotes.

Lemma written_notes_are_the_sounding_entries_witness :
  exists melody,
    genome_to_melody (B := float) sample_scale
                     [1; 1; 0; 0; 1; 0; 0; 1; 1; 0; 0; 0] 1 3 2 true
                     "C" "major" 4 = OK melody
    /\ Forall (fun note => track note = 0 /\ channel note = 0
                           /\ volume note = 127
                           /\ In (pitch note) (sample_scale "C" "major" 4))
              [mkNote 0 0 53 0%float 0x1.5555555555555p+0%float 127;
               mkNote 0 0 57 0%float 0x1.5555555555555p+0%float 127;
               mkNote 0 0 50 0x1.5555555555555p+1%float
                      0x1.5555555555555p+0%float 127;
               mkNote 0 0 53 0x1.5555555555555p+1%float
                      0x1.5555555555555p+0%float 127]
    /\ 4%nat = (Z.to_nat 2 * count_occ Z.eq_dec (velocity melody) 127%Z)%nat.
Proof.
  exact (written_notes_are_the_sounding_entries (B := float) sample_scale
           "0/0/C-major-128-0.mid" [1; 1; 0; 0; 1; 0; 0; 1; 1; 0; 0; 0]
           1 3 2 true "C" "major" 4 128 _ eq_refl).
Defined.

Lemma written_notes_follow_the_beat_witness :
  exists melody,
    genome_to_melody (B := float) sample_scale
                     [1; 1; 0; 0; 1; 0; 0; 1; 1; 0; 0; 0] 1 3 2 true
                     "C" "major" 4 = OK melody
    /\ Forall (fun note =>
                 exists j layer,
                   nth_error (velocity melody) j = Some 127
                   /\ In layer (notes melody)
                   /\ nth_error layer j = Some (pitch note)
                   /\ nth_error (beat melody) j = Some (duration note)
                   /\ time note = beat_sum (firstn j (beat melody)))
              [mkNote 0 0 53 0%float 0x1.5555555555555p+0%float 127;
               mkNote 0 0 57 0%float 0x1.5555555555555p+0%float 127;
               mkNote 0 0 50 0x1.5555555555555p+1%float
                      0x1.5555555555555p+0%float 127;
               mkNote 0 0 53 0x1.5555555555555p+1%float
                      0x1.5555555555555p+0%float 127].
Proof.
  exact (written_notes_follow_the_beat (B := float) sample_scale
           "0/0/C-major-128-0.mid" [1; 1; 0; 0; 1; 0; 0; 1; 1; 0; 0; 0]
           1 3 2 true "C" "major" 4 128 _ eq_refl).
Defined.

(** ** genome_to_events and the two best tracks *)

Section PlaybackProperties.
Context {Pitch B : Type} `{BeatArithLaws B}.
Variable EventScale : string -> string -> Z -> list Pitch.

(** X15: [genome_to_events] raises exactly when [genome_to_melody] does,
    with the same exception; otherwise it returns one [Events] per step,
    in order, each playing its pitch layer once with the velocity and
    duration sequences of the melody, all three of one length, at the
    given tempo. *)
Theorem genome_to_events_follow_the_melody (genome : Genome)
  (num_bars num_notes num_steps : Z) (pauses : bool) (key scale : string)
  (root bpm : Z) :
  (forall e,
     genome_to_events EventScale genome num_bars num_notes num_steps pauses
                      key scale root bpm = Error e
     <-> genome_to_melody EventScale genome num_bars num_notes num_steps
                          pauses key scale root = Error e)
  /\ forall events,
       genome_to_events EventScale genome num_bars num_notes num_steps
                        pauses key scale root bpm = OK events ->
       exists melody,
         genome_to_melody EventScale genome num_bars num_notes num_steps
                          pauses key scale root = OK melody
         /\ length events = Z.to_nat num_steps
         /\ map (fun ev => values (Events.midinote ev)) events = notes melody
         /\ Forall (fun ev =>
                      values (Events.midivel ev) = velocity melody
                      /\ values (Events.beat ev) = beat melody
                      /\ length (values (Events.midinote ev))
                         = length (velocity melody)
                      /\ occurrences (Events.midinote ev) = 1
                      /\ occurrences (Events.midivel ev) = 1
                      /\ occurrences (Events.beat ev) = 1
                      /\ Events.bpm ev = bpm)
                   events.
Proof.
  unfold genome_to_events.
  destruct (genome_to_melody EventScale genome num_bars num_notes num_steps
                             pauses key scale root) as [melody|e1] eqn:E;
    cbn [bind].
  - split; [intros e; split; discriminate|].
    intros events Ev. injection Ev as <-. exists melody.
    destruct (genome_to_melody_shape EventScale _ _ _ _ _ _ _ _ _ E)
      as [Hvb [Hlen Hlayers]].
    split; [reflexivity|]. split; [rewrite length_map; exact Hlen|].
    split.
    + rewrite map_map. cbn [Events.midinote values]. apply map_id.
    + apply Forall_map. eapply Forall_impl; [|exact Hlayers].
      intros layer Hl.
      cbn [Events.midinote Events.midivel Events.beat Events.bpm values
           occurrences].
      rewrite Hl, Hvb. repeat split; reflexivity.
  - split.
    + intros e. split; intros E1; injection E1 as <-; reflexivity.
    + intros events Ev. discriminate.
Qed.

(** X16: the events of the two best genomes are built exactly for a
    population of at least two genomes; with fewer the indexing of the
    population raises [IndexError].  Here the note length exists and the
    scale is not empty, so that [genome_to_events] returns. *)
Theorem best_two_events_need_two_genomes (population : list Genome)
  (num_bars num_notes num_steps : Z) (pauses : bool) (key scale : string)
  (root bpm : Z) :
  num_notes <> 0 -> convertible num_notes ->
  EventScale key scale root <> [] ->
  ((length population < 2)%nat ->
   best_two_events EventScale population num_bars num_notes num_steps
                   pauses key scale root bpm = Error IndexError)
  /\ ((2 <= length population)%nat ->
      exists events events',
        best_two_events (B := B) EventScale population num_bars num_notes
                        num_steps pauses key scale root bpm
        = OK (events, events')
        /\ length events = Z.to_nat num_steps
        /\ length events' = Z.to_nat num_steps).
Proof.
  intros Hn Hc Hscl.
  assert (Hev : forall genome,
             exists events,
               genome_to_events (B := B) EventScale genome num_bars num_notes
                                num_steps pauses key scale root bpm
               = OK events
               /\ length events = Z.to_nat num_steps).
  { intros genome. unfold genome_to_events.
    destruct (genome_to_melody_returns EventScale genome num_bars num_notes
                num_steps pauses key scale root Hn Hc Hscl) as [melody E].
    rewrite E. cbn [bind]. eexists. split; [reflexivity|].
    rewrite length_map.
    exact (proj1 (proj2 (genome_to_melody_shape EventScale _ _ _ _ _ _ _ _ _
                           E))). }
  unfold best_two_events. split.
  - intros Hlen. destruct population as [|best [|second rest]].
    + reflexivity.
    + cbn [index nth_error bind].
      destruct (Hev best) as [events [-> _]]. reflexivity.
    + cbn [length] in Hlen. lia.
  - intros Hlen. destruct population as [|best [|second rest]];
      [cbn [length] in Hlen; lia | cbn [length] in Hlen; lia |].
    cbn [index nth_error bind].
    destruct (Hev best) as [events [-> Hl]]. cbn [bind].
    destruct (Hev second) as [events' [-> Hl']]. cbn [bind].
    exists events, events'. auto.
Qed.

End PlaybackProperties.

Lemma genome_to_events_follow_the_melody_witness :
  exists melody,
    genome_to_melody (B := float) sample_scale [1; 1; 0; 0; 1; 0; 0; 1]
                     1 2 2 false "C" "major" 4 = OK melody
    /\ velocity melody = [127; 127]
    /\ beat melody = [2%float; 2%float]
    /\ notes melody = [[53; 50]; [57; 53]].
Proof.
  destruct (proj2 (genome_to_events_follow_the_melody (H := float_beats)
                     sample_scale [1; 1; 0; 0; 1; 0; 0; 1] 1 2 2 false
                     "C" "major" 4 128)
              [Events.mk (mkEventSeq [53; 50] 1) (mkEventSeq [127; 127] 1)
                         (mkEventSeq [2%float; 2%float] 1)
                         0x1.0624dd2f1a9fcp-10%float
                         0x1.999999999999ap-5%float 0x1p-1%float
                         0x1.47ae147ae147bp-8%float 128;
               Events.mk (mkEventSeq [57; 53] 1) (mkEventSeq [127; 127] 1)
                         (mkEventSeq [2%float; 2%float] 1)
                         0x1.0624dd2f1a9fcp-10%float
                         0x1.999999999999ap-5%float 0x1p-1%float
                         0x1.47ae147ae147bp-8%float 128]
              eq_refl)
    as [melody [Em [_ [Hnotes Hall]]]].
  exists melody. split; [exact Em|].
  inversion Hall as [|ev evs [Hv [Hb _]] _]; subst.
  cbn in Hv, Hb, Hnotes. auto.
Defined.

Lemma best_two_events_need_two_genomes_witness :
  best_two_events (B := float) sample_scale [[1; 1; 0; 0]] 1 1 1 false
                  "C" "major" 4 128 = Error IndexError.
Proof.
  apply (best_two_events_need_two_genomes (B := float) sample_scale
           [[1; 1; 0; 0]] 1 1 1 false "C" "major" 4 128).
  - discriminate.
  - vm_compute. reflexivity.
  - apply sample_scale_nonempty.
  - cbn. lia.
Defined.

(** ** More on the generation loop *)

Lemma genome_eqb_eq (a b : Genome) : genome_eqb a b = true <-> a = b.
Proof.
  revert b; induction a as [|x a IH]; intros [|y b]; cbn [genome_eqb];
    try (split; [discriminate | discriminate]); [tauto|].
  rewrite andb_true_iff, Z.eqb_eq, IH. split.
  - intros [-> ->]. reflexivity.
  - intros E. injection E as -> ->. auto.
Qed.

Lemma insert_desc_split {A : Type} (key : A -> Z) (x : A) (l : list A) :
  exists l1 l2,
    l = l1 ++ l2 /\ insert_desc key x l = l1 ++ x :: l2
    /\ Forall (fun y => key y > key x) l1
    /\ match l2 with [] => True | y :: _ => key y <= key x end.
Proof.
  induction l as [|y l IH]; cbn [insert_desc].
  - exists [], []. cbn. auto.
  - destruct (key y >? key x) eqn:E.
    + destruct IH as [l1 [l2 [-> [-> [H1 H2]]]]].
      exists (y :: l1), l2. cbn [app]. repeat split; auto.
      constructor; [apply Z.gtb_lt in E; lia | exact H1].
    + exists [], (y :: l). cbn [app]. repeat split; auto.
      destruct (Z.gtb_spec (key y) (key x)); [discriminate | lia].
Qed.

Lemma insert_desc_Permutation {A : Type} (key : A -> Z) (x : A)
  (l : list A) :
  Permutation (insert_desc key x l) (x :: l).
Proof.
  destruct (insert_desc_split key x l) as [l1 [l2 [-> [-> _]]]].
  symmetry. apply Permutation_middle.
Qed.

Lemma sorted_desc_Permutation {A : Type} (key : A -> Z) (l : list A) :
  Permutation (sorted_desc key l) l.
Proof.
  induction l as [|x l IH]; cbn [sorted_desc fold_right]; [constructor|].
  fold (sorted_desc key l). rewrite insert_desc_Permutation.
  constructor. exact IH.
Qed.

Lemma insert_desc_sorted {A : Type} (key : A -> Z) (x : A) (l : list A) :
  StronglySorted (fun a b => key a >= key b) l ->
  StronglySorted (fun a b => key a >= key b) (insert_desc key x l).
Proof.
  induction 1 as [|y l Hl IH Hy]; cbn [insert_desc].
  - repeat constructor.
  - destruct (key y >? key x) eqn:E.
    + constructor; [exact IH|].
      apply Forall_forall. intros z Hz.
      apply (Permutation_in _ (insert_desc_Permutation key x l)) in Hz.
      destruct Hz as [<- | Hz].
      * apply Z.gtb_lt in E. lia.
      * rewrite Forall_forall in Hy. exact (Hy z Hz).
    + assert (Hxy : key x >= key y).
      { destruct (Z.gtb_spec (key y) (key x)); [discriminate | lia]. }
      constructor; [constructor; assumption|].
      constructor; [exact Hxy|].
      eapply Forall_impl; [|exact Hy]. cbn. intros z Hz. lia.
Qed.

Lemma sorted_desc_sorted {A : Type} (key : A -> Z) (l : list A) :
  StronglySorted (fun a b => key a >= key b) (sorted_desc key l).
Proof.
  induction l as [|x l IH]; cbn [sorted_desc fold_right]; [constructor|].
  apply insert_desc_sorted. exact IH.
Qed.

Lemma insert_desc_filter {A : Type} (key : A -> Z) (x : A) (l : list A)
  (r : Z) :
  filter (fun e => key e =? r) (insert_desc key x l)
  = filter (fun e => key e =? r) (x :: l).
Proof.
  destruct (insert_desc_split key x l) as [l1 [l2 [-> [-> [H1 _]]]]].
  cbn [filter]. rewrite !filter_app. cbn [filter].
  destruct (key x =? r) eqn:E; [|reflexivity].
  apply Z.eqb_eq in E.
  assert (Hnil : filter (fun e => key e =? r) l1 = []).
  { clear -H1 E. induction H1 as [|y l Hy _ IH]; [reflexivity|].
    cbn [filter]. destruct (key y =? r) eqn:Ey; [|exact IH].
    apply Z.eqb_eq in Ey. lia. }
  rewrite Hnil. reflexivity.
Qed.

Lemma sorted_desc_stable {A : Type} (key : A -> Z) (l : list A) (r : Z) :
  filter (fun e => key e =? r) (sorted_desc key l)
  = filter (fun e => key e =? r) l.
Proof.
  induction l as [|x l IH]; cbn [sorted_desc fold_right]; [reflexivity|].
  fold (sorted_desc key l). rewrite insert_desc_filter.
  cbn [filter]. rewrite IH. reflexivity.
Qed.

Lemma StronglySorted_app_inv {A : Type} (R : A -> A -> Prop)
  (l1 l2 : list A) :
  StronglySorted R (l1 ++ l2) ->
  forall a b, In a l1 -> In b l2 -> R a b.
Proof.
  induction l1 as [|x l1 IH]; intros Hs a b Ha Hb; [contradiction|].
  cbn [app] in Hs. inversion Hs as [|? ? Hs' Hx]; subst.
  destruct Ha as [<- | Ha].
  - rewrite Forall_forall in Hx. apply Hx. apply in_or_app. right. exact Hb.
  - exact (IH Hs' a b Ha Hb).
Qed.

Section GenerationPass.
Variable RNG : Type.
Variable selection_pair :
  list Genome -> (Genome -> Z) -> Rand RNG (Genome * Genome).
Variable single_point_crossover :
  Genome -> Genome -> Rand RNG (Genome * Genome).
Variable mutation : Genome -> Z -> float -> Rand RNG Genome.

Lemma rand_for_each_preserves {S A : Type} (body : S -> A -> Rand RNG S)
  (P : nat -> S -> Prop) :
  (forall n s x rng s' rng',
     P n s -> body s x rng = OK (s', rng') -> P (Datatypes.S n) s') ->
  forall l n s rng s' rng',
    P n s -> rand_for_each RNG body l s rng = OK (s', rng') ->
    P (n + length l)%nat s'.
Proof.
  intros Hbody l; induction l as [|x l IH]; intros n s rng s' rng' Hs E.
  - cbn in E. injection E as <- <-. rewrite Nat.add_0_r. exact Hs.
  - cbn [rand_for_each] in E. unfold rand_bind at 1 in E.
    destruct (body s x rng) as [[s1 rng1]|e] eqn:E1; [|discriminate].
    cbn [length]. rewrite Nat.add_succ_r.
    apply (IH (Datatypes.S n) s1 rng1 s' rng'); [|exact E].
    exact (Hbody n s x rng s1 rng1 Hs E1).
Qed.

Lemma breed_OK (population : list Genome)
  (population_fitness : list (Genome * Z)) (num_mutations : Z)
  (mutation_probability : float) (next next' : list Genome) (j : Z)
  (rng rng' : RNG) :
  breed RNG selection_pair single_point_crossover mutation population
        population_fitness num_mutations mutation_probability next j rng
  = OK (next', rng') ->
  exists offspring_a offspring_b, next' = next ++ [offspring_a; offspring_b].
Proof.
  unfold breed, rand_bind, rand_ret.
  destruct (selection_pair population (fitness_lookup population_fitness) rng)
    as [[parents rng1]|e]; [|discriminate].
  destruct (single_point_crossover (fst parents) (snd parents) rng1)
    as [[offspring rng2]|e]; [|discriminate].
  destruct (mutation (fst offspring) num_mutations mutation_probability rng2)
    as [[a rng3]|e]; [|discriminate].
  destruct (mutation (snd offspring) num_mutations mutation_probability rng3)
    as [[b rng4]|e]; [|discriminate].
  intros E. injection E as <- <-. exists a, b. reflexivity.
Qed.

(** What a pass that returned has produced, whatever the operators. *)
Lemma next_generation_OK (population_fitness : list (Genome * Z))
  (num_mutations : Z) (mutation_probability : float) (rng rng' : RNG)
  (population next : list Genome) :
  next_generation RNG selection_pair single_point_crossover mutation
                  population_fitness num_mutations mutation_probability rng
  = OK ((population, next), rng') ->
  population = map fst (sorted_desc snd population_fitness)
  /\ exists offspring,
       next = firstn 2 population ++ offspring
       /\ length offspring
          = (2 * Z.to_nat (Z.of_nat (length population_fitness) / 2 - 1))%nat.
Proof.
  unfold next_generation. unfold rand_bind at 1.
  set (sorted := map fst (sorted_desc snd population_fitness)).
  destruct (rand_for_each RNG _ _ (firstn 2 sorted) rng)
    as [[next0 rng0]|e] eqn:E; [|discriminate].
  unfold rand_ret. intros E1. injection E1 as <- <- <-.
  split; [reflexivity|].
  assert (Hinv : exists offspring,
             next0 = firstn 2 sorted ++ offspring
             /\ length offspring
                = (2 * (0 + length (range (Z.quot (Z.of_nat (length sorted)) 2
                                          - 1))))%nat).
  { apply (rand_for_each_preserves
             (breed RNG selection_pair single_point_crossover mutation
                    sorted population_fitness num_mutations
                    mutation_probability)
             (fun k s => exists offspring,
                  s = firstn 2 sorted ++ offspring
                  /\ length offspring = (2 * k)%nat))
      with (s := firstn 2 sorted) (rng := rng) (rng' := rng0).
    - intros n s x r1 s' r1' [offspring [Hs1 Hs2]] Eb.
      destruct (breed_OK _ _ _ _ _ _ _ _ _ Eb) as [a [b ->]].
      exists (offspring ++ [a; b]). split.
      + rewrite Hs1, app_assoc. reflexivity.
      + rewrite length_app, Hs2. cbn [length]. lia.
    - exists []. split; [rewrite app_nil_r; reflexivity | reflexivity].
    - exact E. }
  destruct Hinv as [offspring [Hn Hl]].
  exists offspring. split; [exact Hn|].
  rewrite Hl, range_length. cbn [Nat.add].
  unfold sorted. rewrite length_map, sorted_desc_length.
  rewrite Z.quot_div_nonneg by lia. reflexivity.
Qed.

(** X17: the population of a pass is the rated population sorted by
    rating: a permutation of it, in descending order of rating, in which
    genomes of one rating keep the order they were rated in. *)
Theorem population_is_sorted_by_rating
  (population_fitness : list (Genome * Z)) (num_mutations : Z)
  (mutation_probability : float) (rng rng' : RNG)
  (population next : list Genome) :
  next_generation RNG selection_pair single_point_crossover mutation
                  population_fitness num_mutations mutation_probability rng
  = OK ((population, next), rng') ->
  exists sorted,
    population = map fst sorted
    /\ Permutation sorted population_fitness
    /\ StronglySorted (fun a b => snd a >= snd b) sorted
    /\ forall rating,
         filter (fun e => snd e =? rating) sorted
         = filter (fun e => snd e =? rating) population_fitness.
Proof.
  intros E. destruct (next_generation_OK _ _ _ _ _ _ _ E) as [Hp _].
  exists (sorted_desc snd population_fitness).
  split; [exact Hp|]. split; [apply sorted_desc_Permutation|].
  split; [apply sorted_desc_sorted|].
  intros rating. apply sorted_desc_stable.
Qed.

(** X18: the next generation starts with the first two genomes of the
    sorted population, unchanged, and no other genome of the population
    is rated above either of them; the rest are the offspring, two per
    turn of the loop. *)
Theorem next_generation_keeps_the_best_two
  (population_fitness : list (Genome * Z)) (num_mutations : Z)
  (mutation_probability : float) (rng rng' : RNG)
  (population next : list Genome) :
  next_generation RNG selection_pair single_point_crossover mutation
                  population_fitness num_mutations mutation_probability rng
  = OK ((population, next), rng') ->
  exists sorted offspring,
    population = map fst sorted
    /\ Permutation sorted population_fitness
    /\ next = map fst (firstn 2 sorted) ++ offspring
    /\ length offspring
       = (2 * Z.to_nat (Z.of_nat (length population_fitness) / 2 - 1))%nat
    /\ forall best other,
         In best (firstn 2 sorted) -> In other (skipn 2 sorted) ->
         snd other <= snd best.
Proof.
  intros E.
  destruct (next_generation_OK _ _ _ _ _ _ _ E)
    as [Hp [offspring [Hn Hl]]].
  exists (sorted_desc snd population_fitness), offspring.
  split; [exact Hp|]. split; [apply sorted_desc_Permutation|].
  split; [rewrite Hn, Hp, firstn_map; reflexivity|].
  split; [exact Hl|].
  intros best other Hb Ho.
  pose proof (sorted_desc_sorted snd population_fitness) as Hs.
  rewrite <- (firstn_skipn 2 (sorted_desc snd population_fitness)) in Hs.
  pose proof (StronglySorted_app_inv _ _ _ Hs best other Hb Ho) as Hge.
  cbv beta in Hge. lia.
Qed.

(** X20: with fewer than two genomes a pass breeds nothing: it calls no
    operator, leaves the random state as it is, and returns the population
    itself as the next generation. *)
Theorem small_population_is_kept
  (population_fitness : list (Genome * Z)) (num_mutations : Z)
  (mutation_probability : float) (rng : RNG) :
  (length population_fitness < 2)%nat ->
  next_generation RNG selection_pair single_point_crossover mutation
                  population_fitness num_mutations mutation_probability rng
  = OK ((map fst population_fitness, map fst population_fitness), rng).
Proof.
  intros Hlen. destruct population_fitness as [|e [|e' rest]];
    [reflexivity | reflexivity | cbn [length] in Hlen; lia].
Qed.

(** X21: from the first pass on the size of the population no longer
    changes: the next generation of a population of at least two genomes
    has an even number of genomes, at least two, and a pass over any
    rating of it returns as many. *)
Theorem population_size_settles
  (population_fitness population_fitness' : list (Genome * Z))
  (num_mutations : Z) (mutation_probability : float)
  (rng rng' rng1 rng1' : RNG) (population next population' next'
                                : list Genome) :
  (2 <= length population_fitness)%nat ->
  next_generation RNG selection_pair single_point_crossover mutation
                  population_fitness num_mutations mutation_probability rng
  = OK ((population, next), rng') ->
  length population_fitness' = length next ->
  next_generation RNG selection_pair single_point_crossover mutation
                  population_fitness' num_mutations mutation_probability
                  rng1
  = OK ((population', next'), rng1') ->
  Nat.even (length next) = true /\ (2 <= length next)%nat
  /\ length next' = length next.
Proof.
  intros Hn E Hlen' E'.
  assert (Hsize : forall pf p nx r r',
             (2 <= length pf)%nat ->
             next_generation RNG selection_pair single_point_crossover
                             mutation pf num_mutations mutation_probability r
             = OK ((p, nx), r') ->
             Z.of_nat (length nx) = 2 * (Z.of_nat (length pf) / 2)).
  { intros pf p nx r r' Hpf Epf.
    destruct (next_generation_OK _ _ _ _ _ _ _ Epf)
      as [Hp [offspring [Hnx Hl]]].
    rewrite Hnx, length_app, length_firstn, Hp, length_map,
      sorted_desc_length, Hl.
    assert (1 <= Z.of_nat (length pf) / 2)
      by (apply Z.div_le_lower_bound; lia).
    lia. }
  pose proof (Hsize _ _ _ _ _ Hn E) as H1.
  assert (Hhalf : 1 <= Z.of_nat (length population_fitness) / 2)
    by (apply Z.div_le_lower_bound; lia).
  assert (Hn' : (2 <= length population_fitness')%nat) by lia.
  pose proof (Hsize _ _ _ _ _ Hn' E') as H2.
  rewrite Hlen', H1 in H2.
  set (h := Z.of_nat (length population_fitness) / 2) in *.
  rewrite (Z.mul_comm 2 h), Z.div_mul in H2 by lia.
  split; [|split; lia].
  apply Nat.even_spec. exists (Z.to_nat h). lia.
Qed.

End GenerationPass.

(** X19: [fitness_lookup] returns 0 for a genome that was not rated, and
    for a rated genome the rating of its first occurrence in the rated
    population, which is its own rating when no genome occurs twice. *)
Theorem fitness_lookup_finds_the_first_rating
  (population_fitness : list (Genome * Z)) (genome : Genome) :
  (~ In genome (map fst population_fitness) ->
   fitness_lookup population_fitness genome = 0)
  /\ (In genome (map fst population_fitness) ->
      exists before after,
        population_fitness
        = before ++ (genome, fitness_lookup population_fitness genome)
                 :: after
        /\ ~ In genome (map fst before))
  /\ (NoDup (map fst population_fitness) ->
      forall rating,
        In (genome, rating) population_fitness ->
        fitness_lookup population_fitness genome = rating).
Proof.
  assert (Hfirst : forall pf,
             In genome (map fst pf) ->
             exists before after,
               pf = before ++ (genome, fitness_lookup pf genome) :: after
               /\ ~ In genome (map fst before)).
  { induction pf as [|[g r] pf IH]; intros Hin; [contradiction|].
    cbn [fitness_lookup fst snd].
    destruct (genome_eqb g genome) eqn:Eg.
    - apply genome_eqb_eq in Eg. subst g.
      exists [], pf. split; [reflexivity | intros []].
    - destruct Hin as [Hg | Hin].
      + cbn in Hg. subst g.
        rewrite (proj2 (genome_eqb_eq genome genome) eq_refl) in Eg.
        discriminate.
      + destruct (IH Hin) as [before [after [Hpf Hnot]]].
        exists ((g, r) :: before), after. split.
        * cbn [app]. rewrite <- Hpf. reflexivity.
        * cbn [map fst In]. intros [Hg | Hb]; [|exact (Hnot Hb)].
          subst g.
          rewrite (proj2 (genome_eqb_eq genome genome) eq_refl) in Eg.
          discriminate. }
  split; [|split].
  - induction population_fitness as [|[g r] pf IH]; intros Hnot;
      [reflexivity|].
    cbn [fitness_lookup fst snd].
    destruct (genome_eqb g genome) eqn:Eg.
    + apply genome_eqb_eq in Eg. subst g. exfalso. apply Hnot.
      left. reflexivity.
    + apply IH. intros Hin. apply Hnot. right. exact Hin.
  - apply Hfirst.
  - intros Hnd rating Hin.
    assert (Hg : In genome (map fst population_fitness)).
    { apply in_map_iff. exists (genome, rating). auto. }
    destruct (Hfirst _ Hg) as [before [after [Hpf Hnot]]].
    set (found := fitness_lookup population_fitness genome) in *.
    rewrite Hpf in Hin, Hnd.
    apply in_app_or in Hin. destruct Hin as [Hin | [Hin | Hin]].
    + exfalso. apply Hnot. apply in_map_iff. exists (genome, rating). auto.
    + injection Hin as <-. reflexivity.
    + exfalso. rewrite map_app in Hnd. cbn [map fst] in Hnd.
      apply NoDup_remove_2 in Hnd. apply Hnd.
      apply in_or_app. right. apply in_map_iff.
      exists (genome, rating). auto.
Qed.

(** ** The properties on the sample inputs *)

Lemma sample_genome_decodes :
  genome_to_melody (B := float) sample_scale sample_genome 1 3 2 true
                   "C" "major" 4 = OK sample_melody.
Proof. reflexivity. Qed.

Lemma velocities_are_rest_or_full_witness :
  Forall (fun v => v = 0 \/ v = 127) [127; 0; 127]
  /\ count_occ Z.eq_dec [127; 0; 127] 0
     = length (filter (rest_window true) (note_windows sample_genome 1 3)).
Proof.
  exact (velocities_are_rest_or_full (H := float_beats) sample_scale
           sample_genome 1 3 2 true "C" "major" 4 sample_melody
           sample_genome_decodes).
Defined.

Lemma melody_entry_count_witness :
  (length [127; 0; 127] <= Z.to_nat (1 * 3))%nat
  /\ (1 <= 1 * 3 -> [127; 0; 127] <> []).
Proof.
  exact (melody_entry_count (H := float_beats) sample_scale
           sample_genome 1 3 2 true "C" "major" 4 sample_melody
           sample_genome_decodes).
Defined.


Lemma melody_pitches_are_in_scale_witness :
  Forall (Forall (fun p => In p (sample_scale "C" "major" 4)))
         [[53; 48; 50]; [57; 52; 53]].
Proof.
  exact (melody_pitches_are_in_scale (H := float_beats) sample_scale
           sample_genome 1 3 2 true "C" "major" 4 sample_melody
           sample_genome_decodes).
Defined.

Lemma high_bit_is_ignored_without_pauses_witness :
  genome_to_melody (B := float) sample_scale [1; 1; 0; 0] 1 1 1 false
                   "C" "major" 4
  = genome_to_melody (B := float) sample_scale [1; 1; 0; 1] 1 1 1 false
                     "C" "major" 4.
Proof.
  apply (high_bit_is_ignored_without_pauses (B := float) sample_scale
           [1; 1; 0; 0] [1; 1; 0; 1] 1 1 1 "C" "major" 4).
  intros k Hk.
  destruct k as [|[|[|[|k]]]]; try reflexivity.
  exfalso. apply Hk. reflexivity.
Defined.

Lemma population_is_sorted_by_rating_witness :
  exists sorted,
    [[1; 1; 1; 1]; [0; 1; 0; 1]; [0; 1; 1; 1]; [0; 0; 0; 0]]
    = map fst sorted
    /\ Permutation sorted sample_population_fitness
    /\ StronglySorted (fun a b => snd a >= snd b) sorted
    /\ forall rating,
         filter (fun e => snd e =? rating) sorted
         = filter (fun e => snd e =? rating) sample_population_fitness.
Proof.
  exact (population_is_sorted_by_rating unit sample_selection_pair
           sample_single_point_crossover sample_mutation
           sample_population_fitness 2 0.5%float tt tt
           [[1; 1; 1; 1]; [0; 1; 0; 1]; [0; 1; 1; 1]; [0; 0; 0; 0]]
           [[1; 1; 1; 1]; [0; 1; 0; 1]; [1; 1; 0; 1]; [0; 1; 1; 1]]
           eq_refl).
Defined.

Lemma next_generation_keeps_the_best_two_witness :
  exists sorted offspring,
    [[1; 1; 1; 1]; [0; 1; 0; 1]; [0; 1; 1; 1]; [0; 0; 0; 0]]
    = map fst sorted
    /\ Permutation sorted sample_population_fitness
    /\ [[1; 1; 1; 1]; [0; 1; 0; 1]; [1; 1; 0; 1]; [0; 1; 1; 1]]
       = map fst (firstn 2 sorted) ++ offspring
    /\ length offspring = 2%nat
    /\ forall best other,
         In best (firstn 2 sorted) -> In other (skipn 2 sorted) ->
         snd other <= snd best.
Proof.
  exact (next_generation_keeps_the_best_two unit sample_selection_pair
           sample_single_point_crossover sample_mutation
           sample_population_fitness 2 0.5%float tt tt
           [[1; 1; 1; 1]; [0; 1; 0; 1]; [0; 1; 1; 1]; [0; 0; 0; 0]]
           [[1; 1; 1; 1]; [0; 1; 0; 1]; [1; 1; 0; 1]; [0; 1; 1; 1]]
           eq_refl).
Defined.

Lemma small_population_is_kept_witness :
  next_generation unit sample_selection_pair sample_single_point_crossover
                  sample_mutation [([0; 1; 0; 1], 3)] 2 0.5%float tt
  = OK (([[0; 1; 0; 1]], [[0; 1; 0; 1]]), tt).
Proof.
  apply (small_population_is_kept unit sample_selection_pair
           sample_single_point_crossover sample_mutation
           [([0; 1; 0; 1], 3)] 2 0.5%float tt).
  cbn. lia.
Defined.

Lemma population_size_settles_witness :
  Nat.even 2 = true /\ (2 <= 2)%nat /\ 2%nat = 2%nat.
Proof.
  exact (population_size_settles unit sample_selection_pair
           sample_single_point_crossover sample_mutation
           [([0; 0; 0; 0], 1); ([1; 1; 1; 1], 5); ([0; 1; 0; 1], 3)]
           [([0; 1; 0; 1], 4); ([1; 1; 1; 1], 2)]
           2 0.5%float tt tt tt tt
           [[1; 1; 1; 1]; [0; 1; 0; 1]; [0; 0; 0; 0]]
           [[1; 1; 1; 1]; [0; 1; 0; 1]]
           [[0; 1; 0; 1]; [1; 1; 1; 1]]
           [[0; 1; 0; 1]; [1; 1; 1; 1]]
           ltac:(cbn; lia) eq_refl eq_refl eq_refl).
Defined.

Lemma fitness_lookup_finds_the_first_rating_witness :
  fitness_lookup sample_population_fitness [0; 1; 0; 1] = 3.
Proof.
  apply (proj2 (proj2 (fitness_lookup_finds_the_first_rating
                         sample_population_fitness [0; 1; 0; 1]))).
  - unfold sample_population_fitness. cbn [map fst].
    repeat constructor; cbn [In]; intuition discriminate.
  - unfold sample_population_fitness. cbn [In]. auto.
Defined.

